(** * pyproxy: the interception flow engine and the structural matcher

    A shallow embedding of
    - [proxy/pipe/recipe/transform.py] (imported by [soap.py] as
      [proxy.pipe.recipe.flow]): [Transform], [Flow], [GuardedFlow],
      [TransformingFlow] (generators, rejection by [DoesNotAccept], the
      descriptor [__get__], the [parameters] setter and the builders);
    - [proxy/pipe/recipe/soap.py]: [SoapMatches] ([object_matches],
      [list_matches], [dict_matches], [suds_object_matches]).

    Python objects with identity (flow nodes) live in a heap indexed by
    address; generators are resumptions; exceptions are explicit results. *)

From Stdlib Require Import ZArith Bool.
From stdpp Require Import base option list gmap strings.
From stdpp Require Import pretty.

Set Warnings "-register-all".
Open Scope string_scope.
Open Scope list_scope.

(** ** Python values and exceptions *)

Module Py.

(** The exceptions that the modelled code can raise. *)
Inductive exn :=
| DoesNotAccept
| TypeError
| KeyError
| AttributeError
| RecursionError.

Inductive result (A : Type) :=
| Ok (a : A)
| Raise (e : exn).
Arguments Ok {A} a.
Arguments Raise {A} e.

(** The values that reach the matcher and travel through a flow: [None],
    integers, strings, lists, dicts with string keys (in insertion order),
    suds objects (a class name and the attributes in [__keylist__] order)
    and references to any other object, known by identity only. *)
Inductive value :=
| VNone
| VInt (n : Z)
| VStr (s : string)
| VList (xs : list value)
| VDict (kvs : list (string * value))
| VObject (cls : string) (fields : list (string * value))
| VRef (id : nat).

(** A one-character string for every character of [s]: what indexing a
    [str] by position returns. *)
Fixpoint chars (s : string) : list value :=
  match s with
  | EmptyString => []
  | String c s' => VStr (String c EmptyString) :: chars s'
  end.

(** [len(item)]. *)
Definition py_len (item : value) : result nat :=
  match item with
  | VNone | VInt _ | VRef _ => Raise TypeError
  | VStr s => Ok (String.length s)
  | VList xs => Ok (length xs)
  | VDict kvs => Ok (length kvs)
  | VObject _ fields => Ok (length fields)
  end.

(** First binding of [key] in an association list. *)
Fixpoint assoc {A : Type} (key : string) (kvs : list (string * A)) : option A :=
  match kvs with
  | [] => None
  | (k, v) :: kvs' => if String.eqb k key then Some v else assoc key kvs'
  end.

(** [item[key]] for a string [key]: a dict looks the key up, a suds object
    reads the attribute, sequences refuse a string index. *)
Definition py_getitem (item : value) (key : string) : result value :=
  match item with
  | VDict kvs =>
      match assoc key kvs with Some v => Ok v | None => Raise KeyError end
  | VObject _ fields =>
      match assoc key fields with Some v => Ok v | None => Raise AttributeError end
  | _ => Raise TypeError
  end.

(** [getattr(item, key, None)]: the default replaces a missing attribute.
    Only suds objects carry the attributes that patterns name (no key is
    the name of a method of a built-in type). *)
Definition py_getattr_default (item : value) (key : string) : value :=
  match item with
  | VObject _ fields =>
      match assoc key fields with Some v => v | None => VNone end
  | _ => VNone
  end.

(** Truth value of an object: [None], zero and empty containers are false;
    a suds object has [__len__], so it is false without attributes. *)
Definition truthy (v : value) : bool :=
  match v with
  | VNone => false
  | VInt n => negb (Z.eqb n 0)
  | VStr s => negb (Nat.eqb (String.length s) 0)
  | VList xs => negb (Nat.eqb (length xs) 0)
  | VDict kvs => negb (Nat.eqb (length kvs) 0)
  | VObject _ fields => negb (Nat.eqb (length fields) 0)
  | VRef _ => true
  end.

End Py.
Import Py.

(** ** soap.py: [SoapMatches] *)

Module SoapMatches.

(** What a pattern can be, in the order [object_matches] tests for it: a
    list of patterns, a dict of patterns, a suds object whose attributes are
    patterns, a hamcrest [Matcher], a callable; anything else is compared
    with [==] (here: [None], an integer or a string). *)
Inductive pattern :=
| PList (ps : list pattern)
| PDict (kvs : list (string * pattern))
| PObject (cls : string) (fields : list (string * pattern))
| PMatcher (matches : value -> bool)
| PCallable (f : value -> bool)
| PNone
| PInt (n : Z)
| PStr (s : string).

(** [pattern == item] for the scalar patterns. *)
Definition py_eq (pattern : pattern) (item : value) : bool :=
  match pattern, item with
  | PNone, VNone => true
  | PInt n, VInt m => Z.eqb n m
  | PStr s, VStr t => String.eqb s t
  | _, _ => false
  end.

Section Loops.
Context {P : Type}.
(** The recursive call [SoapMatches.object_matches]. *)
Variable object_matches : P -> value -> bool -> result bool.

(** The [while item_index < len(item)] loop of [list_matches] for one
    [pattern_value]. [rest] is [item[item_index:]]. [Some] is the [break],
    with the cursor left on the element that matched; [None] is the
    [else] branch of the loop. *)
Definition scan (pattern_value : P) (strict : bool) :=
  fix scan (rest : list value) (item_index : nat)
    : result (option (nat * list value)) :=
    match rest with
    | [] => Ok None
    | item_value :: rest' =>
        match object_matches pattern_value item_value strict with
        | Raise e => Raise e
        | Ok true => Ok (Some (item_index, rest))
        | Ok false => scan rest' (S item_index)
        end
    end.

(** The [for pattern_index, pattern_value in enumerate(pattern)] loop. *)
Definition for_patterns (strict : bool) :=
  fix for_patterns (pattern : list P) (rest : list value) (item_index : nat)
    : result bool :=
    match pattern with
    | [] => Ok true
    | pattern_value :: pattern' =>
        match scan pattern_value strict rest item_index with
        | Raise e => Raise e
        | Ok None => Ok false
        | Ok (Some (item_index', rest')) =>
            for_patterns pattern' rest' item_index'
        end
    end.

(** [list_matches] once [item] is known to be a sequence of [elems]:
    the length test, then the two loops from [item_index = 0]. *)
Definition list_matches_seq (pattern : list P) (elems : list value)
  (strict : bool) : result bool :=
  if (length elems <? length pattern)%nat
     || (strict && negb (length pattern =? length elems)%nat)
  then Ok false
  else for_patterns strict pattern elems 0.

(** [SoapMatches.list_matches]. [len(item)] and [item[item_index]] depend
    on what [item] is: a list, a string (its characters) and a suds
    object (its attribute values) are sequences; a dict has a length but
    no integer keys here, so reading [item[0]] raises [KeyError]; [None]
    is replaced by [()] in loose mode only; [len] of anything else raises
    [TypeError]. *)
Definition list_matches (pattern : list P) (item : value) (strict : bool)
  : result bool :=
  match item with
  | VNone => if strict then Raise TypeError
             else list_matches_seq pattern [] strict
  | VList xs => list_matches_seq pattern xs strict
  | VStr s => list_matches_seq pattern (chars s) strict
  | VObject _ fields => list_matches_seq pattern (map snd fields) strict
  | VDict kvs =>
      if (length kvs <? length pattern)%nat
         || (strict && negb (length pattern =? length kvs)%nat)
      then Ok false
      else match pattern with [] => Ok true | _ :: _ => Raise KeyError end
  | VInt _ | VRef _ => Raise TypeError
  end.

(** The loop of [dict_matches] over [pattern.items()]. *)
Definition dict_items_match (item : value) (strict : bool) :=
  fix dict_items_match (kvs : list (string * P)) : result bool :=
    match kvs with
    | [] => Ok true
    | (key, value) :: kvs' =>
        match py_getitem item key with
        | Raise e => Raise e
        | Ok item_value =>
            match object_matches value item_value strict with
            | Raise e => Raise e
            | Ok false => Ok false
            | Ok true => dict_items_match kvs'
            end
        end
    end.

(** [SoapMatches.dict_matches]. *)
Definition dict_matches (pattern : list (string * P)) (item : value)
  (strict : bool) : result bool :=
  match py_len item with
  | Raise e => Raise e
  | Ok n =>
      if (n <? length pattern)%nat
         || (strict && negb (length pattern =? n)%nat)
      then Ok false
      else dict_items_match item strict pattern
  end.

(** [value is None] on a pattern value. *)
Variable is_none : P -> bool.

(** [isinstance(item, pattern.__class__)] for two suds objects: the
    classes made by the suds factory derive from [Object] directly. *)
Definition isinstance_of (item_cls pattern_cls : string) : bool :=
  String.eqb item_cls pattern_cls || String.eqb pattern_cls "Object".

(** The loop of [suds_object_matches] over [suds.sudsobject.items(pattern)].
    [getattr] has a default, so the [except AttributeError] is never
    entered. *)
Definition suds_items_match (item : value) (strict : bool) :=
  fix suds_items_match (fields : list (string * P)) : result bool :=
    match fields with
    | [] => Ok true
    | (key, value) :: fields' =>
        if is_none value && negb strict then suds_items_match fields'
        else
          let item_value := py_getattr_default item key in
          match object_matches value item_value strict with
          | Raise e => Raise e
          | Ok false => Ok false
          | Ok true => suds_items_match fields'
          end
    end.

(** [SoapMatches.suds_object_matches]. *)
Definition suds_object_matches (pattern_cls : string)
  (fields : list (string * P)) (item : value) (strict : bool) : result bool :=
  match item with
  | VObject item_cls _ =>
      if negb (isinstance_of item_cls pattern_cls) then Ok false
      else suds_items_match item strict fields
  | _ => suds_items_match item strict fields
  end.
End Loops.

Definition is_none (p : pattern) : bool :=
  match p with PNone => true | _ => false end.

(** [SoapMatches.object_matches]. The recursion follows the pattern, except
    where a pattern that is not a list meets a list in loose mode: there
    [list_matches((pattern,), item, strict)] keeps the pattern and goes into
    the elements of [item]; this is the inner recursion [on_item], written
    with the one [scan] that a one-element pattern needs. The lemma
    [object_matches_eq] below restates the function with the call to
    [list_matches] as the source has it. *)
Fixpoint object_matches (pattern : pattern) (item : value) (strict : bool)
  {struct pattern} : result bool :=
  match pattern with
  | PList ps => list_matches object_matches ps item strict
  | _ =>
      (fix on_item (item : value) {struct item} : result bool :=
         match item, strict with
         | VList xs, false =>
             if (length xs <? 1)%nat then Ok false
             else
               match scan (fun _ item_value _ => on_item item_value)
                       pattern strict xs 0 with
               | Raise e => Raise e
               | Ok None => Ok false
               | Ok (Some _) => Ok true
               end
         | _, _ =>
             match pattern with
             | PList ps => list_matches object_matches ps item strict
             | PDict kvs => dict_matches object_matches kvs item strict
             | PObject cls fields =>
                 suds_object_matches object_matches is_none cls fields
                   item strict
             | PMatcher matches => Ok (matches item)
             | PCallable f => Ok (f item)
             | PNone | PInt _ | PStr _ => Ok (py_eq pattern item)
             end
         end) item
  end.

(** [SoapMatches(pattern, strict)._matches(item)]. *)
Definition _matches (pattern : pattern) (strict : bool) (item : value)
  : result bool :=
  object_matches pattern item strict.

(** Ordered containment with a cursor that only moves forward: the
    patterns are satisfied, in their order, at positions of [item] that
    never decrease, none before [cursor]. *)
Inductive contains_in_order {P : Type}
  (matches : P -> value -> bool -> result bool) (strict : bool)
  (item : list value) : nat -> list P -> Prop :=
| contains_nil cursor : contains_in_order matches strict item cursor []
| contains_cons cursor i p ps v :
    cursor <= i ->
    item !! i = Some v ->
    matches p v strict = Ok true ->
    contains_in_order matches strict item i ps ->
    contains_in_order matches strict item cursor (p :: ps).

Definition soap_matches_loosely (soap_object : pattern) := _matches soap_object false.
Definition soap_matches_strictly (soap_object : pattern) := _matches soap_object true.

(** The values met when the lists of [item] are opened, to any depth. *)
Fixpoint leaves (item : value) : list value :=
  match item with
  | VList xs => flat_map leaves xs
  | _ => [item]
  end.


(** The test that a pattern without parts makes on one value. *)
Definition atom_test (p : pattern) : option (value -> bool) :=
  match p with
  | PMatcher matches => Some matches
  | PCallable f => Some f
  | PNone | PInt _ | PStr _ => Some (py_eq p)
  | PList _ | PDict _ | PObject _ _ => None
  end.

End SoapMatches.

(** ** Generators *)

Module Generator.

(** A generator that has not finished: it returns, raises, or is suspended
    at [response = yield endpoint, message] and goes on with the value it
    is resumed with. *)
Inductive gen (A : Type) :=
| Return (a : A)
| Throw (e : exn)
| Yield (endpoint : string) (message : value) (resume : value -> gen A).
Arguments Return {A} a.
Arguments Throw {A} e.
Arguments Yield {A} endpoint message resume.

(** [a = yield from g; k a]. *)
Fixpoint yield_from {A B : Type} (g : gen A) (k : A -> gen B) : gen B :=
  match g with
  | Return a => k a
  | Throw e => Throw e
  | Yield endpoint message resume =>
      Yield endpoint message (fun v => yield_from (resume v) k)
  end.

(** [try: r = yield from g; return r / except DoesNotAccept: handler]. *)
Fixpoint except_DoesNotAccept {A : Type} (g : gen A) (handler : gen A) : gen A :=
  match g with
  | Return a => Return a
  | Throw DoesNotAccept => handler
  | Throw e => Throw e
  | Yield endpoint message resume =>
      Yield endpoint message (fun v => except_DoesNotAccept (resume v) handler)
  end.

(** A suspension seen by the driver: the pair that was yielded. *)
Definition suspension : Type := string * value.

(** The driver outside the core: it answers every suspension, and may
    decide from all the suspensions so far (the last one is the pending
    one). *)
Definition driver : Type := list suspension -> value.

(** Drive a generator to its end: the suspensions it issued after [trace],
    in order, and how it finished. *)
Fixpoint run {A : Type} (d : driver) (g : gen A) (trace : list suspension)
  : list suspension * result A :=
  match g with
  | Return a => (trace, Ok a)
  | Throw e => (trace, Raise e)
  | Yield endpoint message resume =>
      let trace' := trace ++ [(endpoint, message)] in
      run d (resume (d trace')) trace'
  end.

End Generator.
Import Generator.

(** ** transform.py: [Transform] and the [Flow] classes *)

Module Flow.

(** Addresses of flow objects and of owner instances. *)
Abbreviation loc := nat (only parsing).

(** [Transform]: the entry point [transform(request, proxy, next_in_chain)],
    which subclasses override ([SoapTransform] does). *)
Record Transform := {
  transform : value -> loc -> (value -> gen value) -> gen value
}.

(** [Transform.transform], the base class, over its two hooks. *)
Definition Transform_transform
  (transform_request : value -> loc -> value)
  (transform_response : value -> value -> value -> loc -> value)
  (request : value) (proxy : loc) (next_in_chain : value -> gen value)
  : gen value :=
  let new_request := transform_request request proxy in
  if negb (truthy new_request) then Throw DoesNotAccept
  else
    yield_from (next_in_chain new_request) (fun response =>
    let response := transform_response new_request response request proxy in
    Return response).

(** The identity hooks of the base class. *)
Definition default_Transform : Transform :=
  {| transform :=
       Transform_transform (fun request _ => request)
                           (fun _ response _ _ => response) |}.

(** The three classes of flow object. *)
Inductive kind :=
| PlainFlow
| GuardedFlow (guard : value -> bool)
| TransformingFlow (transform : Transform).

(** What a branch list holds: a plain function (the [_responder] closures),
    a method bound to an instance (what [function.__get__] returns), or a
    flow object. A function takes its positional arguments as a list. *)
Inductive branch :=
| BFunction (f : list value -> gen value)
| BMethod (f : list value -> gen value) (instance : value)
| BFlow (flow : loc).

Record flow_obj := {
  cls : kind;
  parameters : value;
  branches : list branch
}.

Definition with_parameters (p : value) (o : flow_obj) : flow_obj :=
  {| cls := cls o; parameters := p; branches := branches o |}.

Definition with_branches (bs : list branch) (o : flow_obj) : flow_obj :=
  {| cls := cls o; parameters := parameters o; branches := bs |}.

(** The flow objects by address, and [instance.__dict__] of every owner
    instance (only flow objects are ever stored there). *)
Record state := {
  heap : list flow_obj;
  dicts : gmap nat (gmap string loc)
}.

Definition with_heap (h : list flow_obj) (st : state) : state :=
  {| heap := h; dicts := dicts st |}.

(** [instance.__dict__.get(key, None)]. *)
Definition dict_get (st : state) (instance : nat) (key : string) : option loc :=
  default ∅ (dicts st !! instance) !! key.

(** [instance.__dict__[key] = flow]. *)
Definition dict_set (st : state) (instance : nat) (key : string) (flow : loc)
  : state :=
  {| heap := heap st;
     dicts := <[instance := <[key := flow]> (default ∅ (dicts st !! instance))]>
                (dicts st) |}.

(** A new object, at the next free address. *)
Definition alloc (o : flow_obj) (h : list flow_obj) : list flow_obj * loc :=
  (h ++ [o], length h).

(** [flow.__branches.append(b)] on the object at [self]. *)
Definition append_branch (self : loc) (b : branch) (h : list flow_obj)
  : list flow_obj :=
  match h !! self with
  | Some o => <[self := with_branches (branches o ++ [b]) o]> h
  | None => h
  end.

(** [Flow(parameters)]. *)
Definition Flow_init (parameters : value) (st : state) : state * loc :=
  let '(h, self) :=
    alloc {| cls := PlainFlow; parameters := parameters; branches := [] |}
          (heap st) in
  (with_heap h st, self).

(** *** The [parameters] setter *)

(** The loop [for branch in self.__branches] of the setter: only flow
    objects have a [parameters] attribute. *)
Definition set_branches (set : list flow_obj -> loc -> option (list flow_obj)) :=
  fix set_branches (bs : list branch) (h : list flow_obj)
    : option (list flow_obj) :=
    match bs with
    | [] => Some h
    | BFlow flow :: bs' =>
        match set h flow with
        | Some h' => set_branches bs' h'
        | None => None
        end
    | _ :: bs' => set_branches bs' h
    end.

(** [self.parameters = parameters]. [fuel] bounds the depth of the nested
    calls; [None] is a call that does not return (the recursion limit). *)
Fixpoint set_parameters (fuel : nat) (parameters : value)
  (h : list flow_obj) (self : loc) : option (list flow_obj) :=
  match fuel with
  | 0 => None
  | S fuel' =>
      match h !! self with
      | None => None
      | Some o =>
          set_branches (set_parameters fuel' parameters) (branches o)
            (<[self := with_parameters parameters o]> h)
      end
  end.

(** *** The descriptor [__get__] *)

(** The loop [for branch in self.__branches] of [__get__]: every branch has
    a [__get__]; that of a function binds it to [instance], that of a bound
    method returns the method, that of a flow object is [Flow.__get__]. *)
Definition get_branches (get : state -> loc -> option (state * loc))
  (instance : nat) (new_flow : loc) :=
  fix get_branches (bs : list branch) (st : state) : option state :=
    match bs with
    | [] => Some st
    | BFlow flow :: bs' =>
        match get st flow with
        | Some (st', flow') =>
            get_branches bs'
              (with_heap (append_branch new_flow (BFlow flow') (heap st')) st')
        | None => None
        end
    | BFunction f :: bs' =>
        get_branches bs'
          (with_heap (append_branch new_flow (BMethod f (VRef instance)) (heap st)) st)
    | BMethod f i :: bs' =>
        get_branches bs'
          (with_heap (append_branch new_flow (BMethod f i) (heap st)) st)
    end.

(** [Flow.__get__(self, instance, owner)]; [instance] is [None] when the
    attribute is read on the class. *)
Fixpoint __get__ (fuel : nat) (instance : option nat) (st : state) (self : loc)
  : option (state * loc) :=
  match fuel with
  | 0 => None
  | S fuel' =>
      match instance with
      | None => Some (st, self)
      | Some inst =>
          match dict_get st inst "__flow" with
          | Some new_flow => Some (st, new_flow)
          | None =>
              match heap st !! self with
              | None => None
              | Some o =>
                  let '(h, new_flow) := alloc (with_branches [] o) (heap st) in
                  match get_branches (__get__ fuel' instance) inst new_flow
                          (branches o) (with_heap h st) with
                  | Some st' => Some (dict_set st' inst "__flow" new_flow, new_flow)
                  | None => None
                  end
              end
          end
      end
  end.

(** *** The builders *)

(** [Flow.then_delegate]. *)
Definition then_delegate (fuel : nat) (st : state) (self flow : loc)
  : option (state * loc) :=
  match heap st !! self with
  | None => None
  | Some o =>
      let h := append_branch self (BFlow flow) (heap st) in
      match set_parameters fuel (parameters o) h flow with
      | Some h' => Some (with_heap h' st, flow)
      | None => None
      end
  end.

(** [Flow.when]: a guard is a hamcrest matcher, or a callable wrapped into
    a [LambdaMatcher]; either way a predicate on the request. *)
Definition when (fuel : nat) (st : state) (self : loc) (matcher : value -> bool)
  : option (state * loc) :=
  match heap st !! self with
  | None => None
  | Some o =>
      let '(h, flow) :=
        alloc {| cls := GuardedFlow matcher; parameters := parameters o;
                 branches := [] |} (heap st) in
      then_delegate fuel (with_heap h st) self flow
  end.

(** [Flow.transform]. *)
Definition Flow_transform (fuel : nat) (st : state) (self : loc) (t : Transform)
  : option (state * loc) :=
  match heap st !! self with
  | None => None
  | Some o =>
      let '(h, flow) :=
        alloc {| cls := TransformingFlow t; parameters := parameters o;
                 branches := [] |} (heap st) in
      then_delegate fuel (with_heap h st) self flow
  end.

(** The argument of [then_respond]: a callable or any other value. *)
Inductive responder :=
| Callable (f : list value -> result value)
| Constant (v : value).

(** The closure [_responder] that [then_respond] builds; it takes any
    number of positional arguments and hands them to a callable. *)
Definition respond_responder (r : responder) (args : list value) : gen value :=
  match r with
  | Callable f =>
      match f args with
      | Ok response => Return response
      | Raise e => Throw e
      end
  | Constant v => Return v
  end.

(** [Flow.then_respond]. *)
Definition then_respond (st : state) (self : loc) (r : responder)
  : state * loc :=
  (with_heap (append_branch self (BFunction (respond_responder r)) (heap st)) st,
   self).

(** The closure [_responder(self, request=None)] that [then_pass_through]
    builds: called with one argument or two. *)
Definition pass_through_responder (endpoint : string) (args : list value)
  : gen value :=
  match args with
  | [self] =>
      Yield endpoint self (fun response => Return response)
  | [self; request] =>
      let request := if negb (truthy request) then self else request in
      Yield endpoint request (fun response => Return response)
  | _ => Throw TypeError
  end.

(** [Flow.then_pass_through]. *)
Definition then_pass_through (st : state) (self : loc) (endpoint : string)
  : state * loc :=
  (with_heap
     (append_branch self (BFunction (pass_through_responder endpoint)) (heap st))
     st,
   self).

(** *** Evaluation *)

(** [Flow.__call__] over the callables in [self.__branches]. *)
Fixpoint Flow_call (branches : list (value -> gen value)) (request : value)
  : gen value :=
  match branches with
  | [] => Throw DoesNotAccept
  | branch :: branches' =>
      except_DoesNotAccept (branch request) (Flow_call branches' request)
  end.

(** [branch(request)] for each kind of branch. *)
Definition call_branch (call : loc -> value -> gen value) (b : branch)
  : value -> gen value :=
  match b with
  | BFunction f => fun request => f [request]
  | BMethod f instance => fun request => f [instance; request]
  | BFlow flow => call flow
  end.

(** [self(request)] for the object at [self], by its class:
    [Flow.__call__], [GuardedFlow.__call__], [TransformingFlow.__call__].
    The tree is not changed while a request is evaluated. *)
Fixpoint call (fuel : nat) (h : list flow_obj) (self : loc) (request : value)
  : gen value :=
  match fuel with
  | 0 => Throw RecursionError
  | S fuel' =>
      match h !! self with
      | None => Throw AttributeError
      | Some o =>
          let super_call :=
            Flow_call (map (call_branch (call fuel' h)) (branches o)) in
          match cls o with
          | PlainFlow => super_call request
          | GuardedFlow guard =>
              if negb (guard request) then Throw DoesNotAccept
              else super_call request
          | TransformingFlow t => transform t request self super_call
          end
      end
  end.

(** Every branch of the list, driven one after the other from [trace],
    ends in [DoesNotAccept]; [trace'] is the trace after the last one. *)
Inductive all_reject (d : driver) (request : value)
  : list (value -> gen value) -> list suspension -> list suspension -> Prop :=
| all_reject_nil trace : all_reject d request [] trace trace
| all_reject_cons branch branches trace trace' trace'' :
    run d (branch request) trace = (trace', Raise DoesNotAccept) ->
    all_reject d request branches trace' trace'' ->
    all_reject d request (branch :: branches) trace trace''.

(** [n] is [self] or a flow object below it: reached through branch lists. *)
Inductive reach (h : list flow_obj) : loc -> loc -> Prop :=
| reach_self self : reach h self self
| reach_branch self o flow n :
    h !! self = Some o -> BFlow flow ∈ branches o -> reach h flow n ->
    reach h self n.

(** The object at [n] exists and its parameters are [p]. *)
Definition has_parameters (p : value) (h : list flow_obj) (n : loc) : Prop :=
  exists o, h !! n = Some o /\ parameters o = p.

(** [h'] is [h] where some objects had their parameters set to [p]. *)
Definition updated (p : value) (h h' : list flow_obj) : Prop :=
  length h' = length h /\
  forall n, h' !! n = h !! n \/ h' !! n = with_parameters p <$> h !! n.

(** A set of addresses that branch lists do not leave. *)
Definition closed_under (h : list flow_obj) (Q : loc -> Prop) : Prop :=
  forall l o c, Q l -> h !! l = Some o -> BFlow c ∈ branches o -> Q c.

(** Every branch names an object, of smaller rank: the flows form a tree
    or a graph without cycles. *)
Definition ranked (rank : loc -> nat) (h : list flow_obj) : Prop :=
  forall l o c, h !! l = Some o -> BFlow c ∈ branches o ->
    c < length h /\ rank c < rank l.




(** What [__get__] for [instance] may change from [st] to [st']: nothing
    before [base] and nothing of another owner. *)
Definition get_step (base : loc) (instance : nat) (st st' : state) : Prop :=
  length (heap st) <= length (heap st') /\
  (forall l, l < base -> heap st' !! l = heap st !! l) /\
  (forall other, other <> instance -> dicts st' !! other = dicts st !! other).




(** Two heaps with the same objects up to their parameters. *)
Definition same_shape (h h' : list flow_obj) : Prop :=
  length h' = length h /\
  forall n o, h !! n = Some o ->
    exists o', h' !! n = Some o' /\ branches o' = branches o.

End Flow.

(** ** soap.py: default responses *)

Module DefaultResponse.






Section Factory.

(** [getattr(client.factory, name)()]: the attributes of the new suds
    object of class [name]. *)
Variable factory : string -> list (string * value).



End Factory.


End DefaultResponse.

(** ** Small configurations *)

Module Examples.
Import Flow.

Definition empty : state := {| heap := []; dicts := ∅ |}.

(** A guard on requests that are just a path. *)
Definition is_path (path : string) (request : value) : bool :=
  match request with
  | VStr s => String.eqb s path
  | _ => false
  end.

(** [root = Flow(); root.when(is_path("/a")).then_respond(1);
     root.when(is_path("/b")).then_respond(2)]. *)
Definition routes : state :=
  {| heap :=
       [ {| cls := PlainFlow; parameters := VNone;
            branches := [BFlow 1; BFlow 2] |};
         {| cls := GuardedFlow (is_path "/a"); parameters := VNone;
            branches := [BFunction (respond_responder (Constant (VInt 1)))] |};
         {| cls := GuardedFlow (is_path "/b"); parameters := VNone;
            branches := [BFunction (respond_responder (Constant (VInt 2)))] |} ];
     dicts := ∅ |}.

(** Two flow definitions: [first = Flow(); first.then_respond(1)] and
    [second = Flow(); second.then_respond(2)]. *)
Definition two_definitions : state :=
  {| heap :=
       [ {| cls := PlainFlow; parameters := VNone;
            branches := [BFunction (respond_responder (Constant (VInt 1)))] |};
         {| cls := PlainFlow; parameters := VNone;
            branches := [BFunction (respond_responder (Constant (VInt 2)))] |} ];
     dicts := ∅ |}.

(** A chain of three flows, and a rank for it. *)
Definition chain : list flow_obj :=
  [ {| cls := PlainFlow; parameters := VNone; branches := [BFlow 1] |};
    {| cls := PlainFlow; parameters := VNone; branches := [BFlow 2] |};
    {| cls := PlainFlow; parameters := VNone; branches := [] |} ].

Definition chain_rank (l : loc) : nat := 3 - l.

(** A driver that answers every suspension with [9]. *)
Definition nine : driver := fun _ => VInt 9.

End Examples.

Import SoapMatches.
Import Flow.

(** Case analysis on membership in an explicit branch list. *)
Ltac branch_cases H :=
  repeat (apply elem_of_cons in H;
          destruct H as [H|H]; [try discriminate; try (injection H as ->)|]);
  try (apply elem_of_nil in H; destruct H).

(** Case analysis on a lookup in an explicit heap. *)
Ltac heap_cases l H :=
  repeat (destruct l as [|l]; [simpl in H; injection H as <-|]);
  try match goal with
      | Hx : _ !! _ = Some _ |- _ => simpl in Hx; discriminate Hx
      end.

(** * Properties *)

(** ** The structural matcher *)

Section MatcherFacts.

(** [scan] only looks at what the matcher answers on the elements. *)
Lemma scan_ext {P Q : Type} (f : P -> value -> bool -> result bool)
(g : Q -> value -> bool -> result bool) p q strict rest :
(forall v, f p v strict = g q v strict) ->
forall item_index,
  scan f p strict rest item_index = scan g q strict rest item_index.
Proof.
intros Hfg. induction rest as [|v rest IH]; intros item_index; simpl.
- reflexivity.
- rewrite Hfg. destruct (g q v strict) as [[|]|]; auto.
Qed.

(** [object_matches] as the source writes it: the tests in the order of the
  [if]/[elif] chain, with [list_matches((pattern,), item, strict)] for a
  list met in loose mode. *)
Lemma object_matches_eq (pattern : pattern) (item : value) (strict : bool) :
object_matches pattern item strict =
match pattern with
| PList ps => list_matches object_matches ps item strict
| _ =>
    match item, strict with
    | VList _, false => list_matches object_matches [pattern] item strict
    | _, _ =>
        match pattern with
        | PList ps => list_matches object_matches ps item strict
        | PDict kvs => dict_matches object_matches kvs item strict
        | PObject cls fields =>
            suds_object_matches object_matches is_none cls fields item strict
        | PMatcher matches => Ok (matches item)
        | PCallable f => Ok (f item)
        | PNone | PInt _ | PStr _ => Ok (py_eq pattern item)
        end
    end
end.
Proof.
destruct pattern; try reflexivity;
  destruct item as [| | |xs| | |], strict; try reflexivity;
  unfold list_matches, list_matches_seq; simpl;
  (destruct (length xs <? 1)%nat; simpl; [reflexivity|]);
  match goal with
  | |- context [scan ?f ?p false xs 0] =>
      rewrite (scan_ext f object_matches p p false xs) by reflexivity
  end;
  destruct (scan object_matches _ false xs 0) as [[[? ?]|]|]; reflexivity.
Qed.

Lemma drop_cons_inv {A : Type} (l : list A) n x r :
drop n l = x :: r -> l !! n = Some x /\ drop (S n) l = r.
Proof.
intros H. split.
- rewrite <- (Nat.add_0_r n), <- lookup_drop, H. reflexivity.
- replace (S n) with (n + 1) by lia.
  rewrite <- drop_drop, H. reflexivity.
Qed.

Section Cursor.
Context {P : Type} (om : P -> value -> bool -> result bool).
Variables (strict : bool) (item : list value).

(** Where the [while] loop breaks: at or after the cursor it started
    from, on an element that matches, and the cursor stays on it. *)
Lemma scan_break p item_index i rest' :
  scan om p strict (drop item_index item) item_index = Ok (Some (i, rest')) ->
  item_index <= i /\ rest' = drop i item /\
  exists v, item !! i = Some v /\ om p v strict = Ok true.
Proof.
  remember (drop item_index item) as rest eqn:Hrest.
  revert item_index Hrest.
  induction rest as [|w rest IH]; intros item_index Hrest; simpl.
  - discriminate.
  - symmetry in Hrest. destruct (drop_cons_inv _ _ _ _ Hrest) as [Hw Hd].
    destruct (om p w strict) as [[|]|] eqn:Hom; try discriminate.
    + intros [= <- <-]. repeat split; eauto.
    + intros H. apply IH in H; [|congruence].
      destruct H as (? & ? & ?). split; [lia|auto].
Qed.

(** The loop stops at the first element, from the cursor on, that
    matches, when the matcher answers on every element. *)
Lemma scan_finds p i v :
  (forall w e, w ∈ item -> om p w strict <> Raise e) ->
  item !! i = Some v -> om p v strict = Ok true ->
  forall n item_index, i = item_index + n ->
    exists j, item_index <= j <= i /\
      scan om p strict (drop item_index item) item_index
      = Ok (Some (j, drop j item)).
Proof.
  intros Hok Hi Hv. induction n as [|n IH]; intros item_index ->.
  - exists item_index. split; [lia|].
    rewrite Nat.add_0_r in Hi. rewrite (drop_S _ _ _ Hi). simpl.
    rewrite Hv. rewrite <- (drop_S _ _ _ Hi). reflexivity.
  - destruct (lookup_lt_is_Some_2 item item_index) as [w Hw].
    { apply lookup_lt_Some in Hi. lia. }
    rewrite (drop_S _ _ _ Hw). simpl.
    destruct (om p w strict) as [[|]|] eqn:Hom.
    + exists item_index. split; [lia|]. rewrite <- (drop_S _ _ _ Hw). reflexivity.
    + destruct (IH (S item_index)) as (j & ? & ?); [lia|].
      exists j. split; [lia|auto].
    + exfalso. eapply Hok; [|exact Hom]. eapply list_elem_of_lookup_2; eauto.
Qed.

(** A match of the [for] loop is an ordered containment. *)
Lemma for_patterns_sound ps : forall item_index,
  for_patterns om strict ps (drop item_index item) item_index = Ok true ->
  contains_in_order om strict item item_index ps.
Proof.
  induction ps as [|p ps IH]; intros item_index; simpl.
  - constructor.
  - destruct (scan om p strict (drop item_index item) item_index)
      as [[[i rest']|]|] eqn:Hscan; try discriminate.
    apply scan_break in Hscan. destruct Hscan as (Hle & -> & v & Hv & Hm).
    intros H. econstructor; eauto.
Qed.

(** An ordered containment is found by the [for] loop, from any cursor
    not after the one of the containment. *)
Lemma for_patterns_complete ps cursor :
  (forall p w e, p ∈ ps -> w ∈ item -> om p w strict <> Raise e) ->
  contains_in_order om strict item cursor ps ->
  forall item_index, item_index <= cursor ->
    for_patterns om strict ps (drop item_index item) item_index = Ok true.
Proof.
  intros Hok Hc. induction Hc as [|cursor i p ps v Hle Hi Hv Hc IH];
    intros item_index Hidx; simpl.
  - reflexivity.
  - destruct (scan_finds p i v) with (n := i - item_index)
      (item_index := item_index) as (j & Hj & ->); auto; [|lia|].
    { intros w e Hw. apply Hok; [left|exact Hw]. }
    apply IH; [|lia].
    intros q w e Hq Hw. apply Hok; [right; exact Hq|exact Hw].
Qed.
End Cursor.

(** C4. In loose mode a sequence pattern is matched as an ordered
  containment with a cursor that never moves backward: [[1,3]] matches
  [[1,2,3,4]], [[3,1]] does not match [[1,2,3]], and, whenever the matcher
  answers on the elements, [list_matches] says yes exactly when the
  pattern is not longer than the actual list and its elements are
  satisfied, in order, at positions that never decrease. *)
Theorem list_matches_ordered_containment :
object_matches (PList [PInt 1; PInt 3])
  (VList [VInt 1; VInt 2; VInt 3; VInt 4]) false = Ok true /\
object_matches (PList [PInt 3; PInt 1])
  (VList [VInt 1; VInt 2; VInt 3]) false = Ok false /\
(forall ps xs,
   list_matches object_matches ps (VList xs) false = Ok true ->
   length ps <= length xs /\ contains_in_order object_matches false xs 0 ps) /\
(forall ps xs,
   (forall p w e, p ∈ ps -> w ∈ xs -> object_matches p w false <> Raise e) ->
   length ps <= length xs ->
   contains_in_order object_matches false xs 0 ps ->
   list_matches object_matches ps (VList xs) false = Ok true).
Proof.
split; [reflexivity|]. split; [reflexivity|]. split.
- intros ps xs. unfold list_matches, list_matches_seq. simpl.
  rewrite orb_false_r.
  destruct (length xs <? length ps)%nat eqn:Hlen; [discriminate|].
  apply Nat.ltb_ge in Hlen. intros H. split; [exact Hlen|].
  apply for_patterns_sound. rewrite drop_0. exact H.
- intros ps xs Hok Hlen Hc. unfold list_matches, list_matches_seq. simpl.
  rewrite orb_false_r.
  apply Nat.ltb_ge in Hlen. rewrite Hlen.
  rewrite <- (drop_0 xs) at 1.
  eapply for_patterns_complete; eauto.
Qed.

Lemma list_matches_ordered_containment_witness :
contains_in_order object_matches false [VInt 1; VInt 2; VInt 3; VInt 4] 0
  [PInt 1; PInt 3] /\
list_matches object_matches [PInt 1; PInt 3]
  (VList [VInt 1; VInt 2; VInt 3; VInt 4]) false = Ok true.
Proof.
assert (Hc : contains_in_order object_matches false
               [VInt 1; VInt 2; VInt 3; VInt 4] 0 [PInt 1; PInt 3]).
{ apply (contains_cons _ _ _ 0 0 _ _ (VInt 1)); [lia|reflexivity|reflexivity|].
  apply (contains_cons _ _ _ 0 2 _ _ (VInt 3)); [lia|reflexivity|reflexivity|].
  constructor. }
split; [exact Hc|].
destruct list_matches_ordered_containment as (_ & _ & _ & H).
apply H; [|simpl; lia|exact Hc].
intros p w e Hp Hw.
repeat (apply elem_of_cons in Hp; destruct Hp as [->|Hp]);
  try (apply elem_of_nil in Hp; destruct Hp);
  repeat (apply elem_of_cons in Hw; destruct Hw as [->|Hw]);
  try (apply elem_of_nil in Hw; destruct Hw); discriminate.
Defined.

(** C10. The cursor stays on the element that matched, so the next pattern
  element may be satisfied by the same actual element: [[2,2]] matches
  [[2,3]] in loose and in strict mode; in general a pattern element that
  the element under the cursor satisfies is matched there again. *)
Theorem list_matches_cursor_not_advanced :
object_matches (PList [PInt 2; PInt 2]) (VList [VInt 2; VInt 3]) false
  = Ok true /\
object_matches (PList [PInt 2; PInt 2]) (VList [VInt 2; VInt 3]) true
  = Ok true /\
(forall strict item p q item_index i rest',
   scan object_matches p strict (drop item_index item) item_index
     = Ok (Some (i, rest')) ->
   (forall v, item !! i = Some v -> object_matches q v strict = Ok true) ->
   scan object_matches q strict rest' i = Ok (Some (i, rest'))).
Proof.
split; [reflexivity|]. split; [reflexivity|].
intros strict item p q item_index i rest' Hscan Hq.
apply scan_break in Hscan. destruct Hscan as (_ & -> & v & Hv & _).
rewrite (drop_S _ _ _ Hv). simpl. rewrite (Hq v Hv). reflexivity.
Qed.

Lemma list_matches_cursor_not_advanced_witness :
scan object_matches (PInt 2) false [VInt 2; VInt 3] 0
  = Ok (Some (0, [VInt 2; VInt 3])).
Proof.
destruct list_matches_cursor_not_advanced as (_ & _ & H).
apply (H false [VInt 2; VInt 3] (PInt 2) (PInt 2) 0 0 [VInt 2; VInt 3]).
- reflexivity.
- intros v [= <-]. reflexivity.
Defined.

(** C3. Against an absent actual ([None]) the empty sequence pattern
  matches in loose mode; in strict mode the length of [None] is taken
  and [list_matches] raises [TypeError] for every pattern. *)
Theorem list_matches_None_actual :
object_matches (PList []) VNone false = Ok true /\
(forall ps, list_matches object_matches ps VNone false
            = Ok (match ps with [] => true | _ => false end)) /\
(forall ps, object_matches (PList ps) VNone true = Raise TypeError).
Proof.
split; [reflexivity|]. split.
- intros [|p ps]; reflexivity.
- intros ps. reflexivity.
Qed.

(** C2. A record pattern that names a field missing from the actual dict
    does not degrade to a non-match: [item[key]] raises [KeyError], in both
    modes, as soon as the actual has at least as many fields as the
    pattern (exactly as many in strict mode), and [len] of an actual
    without a length raises [TypeError]; a suds object pattern, which
    reads with [getattr] and a default, answers [False] on the same
    shape. *)
Theorem dict_matches_missing_field_raises :
  object_matches (PDict [("a", PInt 1); ("b", PInt 2)])
    (VDict [("a", VInt 1); ("c", VInt 3)]) false = Raise KeyError /\
  object_matches (PDict [("a", PInt 1); ("b", PInt 2)])
    (VDict [("a", VInt 1); ("c", VInt 3)]) true = Raise KeyError /\
  object_matches (PDict [("a", PInt 1)]) (VInt 1) false = Raise TypeError /\
  object_matches (PObject "Object" [("a", PInt 1); ("b", PInt 2)])
    (VObject "Object" [("a", VInt 1); ("c", VInt 3)]) false = Ok false /\
  (forall (strict : bool) (key : string) (sub : pattern)
          (kvs : list (string * pattern)) (actual : list (string * value)),
     assoc key actual = None ->
     (if strict then length actual = S (length kvs)
      else S (length kvs) <= length actual) ->
     object_matches (PDict ((key, sub) :: kvs)) (VDict actual) strict
     = Raise KeyError).
Proof.
  split; [reflexivity|]. split; [reflexivity|]. split; [reflexivity|].
  split; [reflexivity|].
  intros strict key sub kvs actual Hmissing Hlen.
  rewrite object_matches_eq. destruct strict.
  - unfold dict_matches. cbn [py_len length].
    replace (length actual <? S (length kvs))%nat with false
      by (symmetry; apply Nat.ltb_ge; lia).
    replace (S (length kvs) =? length actual)%nat with true
      by (symmetry; apply Nat.eqb_eq; lia).
    cbn [orb andb negb dict_items_match py_getitem]. rewrite Hmissing. reflexivity.
  - unfold dict_matches. cbn [py_len length].
    replace (length actual <? S (length kvs))%nat with false
      by (symmetry; apply Nat.ltb_ge; lia).
    cbn [orb andb negb dict_items_match py_getitem]. rewrite Hmissing. reflexivity.
Qed.

Lemma dict_matches_missing_field_raises_witness :
  assoc "b" [("a", VInt 1); ("c", VInt 3)] = None /\
  object_matches (PDict [("b", PInt 2); ("a", PInt 1)])
    (VDict [("a", VInt 1); ("c", VInt 3)]) true = Raise KeyError.
Proof.
  split; [reflexivity|].
  destruct dict_matches_missing_field_raises as (_ & _ & _ & _ & H).
  apply H; reflexivity.
Defined.

End MatcherFacts.

(** ** Evaluation of a flow *)

Section Evaluation.

(** Driving a [try]/[except DoesNotAccept]: the handler runs exactly when
  the body ends in [DoesNotAccept], after the suspensions of the body. *)
Lemma run_except_DoesNotAccept {A : Type} (d : driver) (g handler : gen A) :
forall trace,
  run d (except_DoesNotAccept g handler) trace =
  match run d g trace with
  | (trace', Raise DoesNotAccept) => run d handler trace'
  | finished => finished
  end.
Proof.
induction g as [a|e|endpoint message resume IH]; intros trace; simpl.
- reflexivity.
- destruct e; reflexivity.
- apply IH.
Qed.

Lemma run_Flow_call_cons d branch branches request trace :
run d (Flow_call (branch :: branches) request) trace =
match run d (branch request) trace with
| (trace', Raise DoesNotAccept) => run d (Flow_call branches request) trace'
| finished => finished
end.
Proof. simpl. apply run_except_DoesNotAccept. Qed.

(** The branches before the first one that does not reject are driven in
  order, and that one supplies the result. *)
Lemma Flow_call_first d request pre : forall trace trace1,
all_reject d request pre trace trace1 ->
forall branch post,
  run d (Flow_call (pre ++ branch :: post) request) trace =
  match run d (branch request) trace1 with
  | (trace', Raise DoesNotAccept) => run d (Flow_call post request) trace'
  | finished => finished
  end.
Proof.
intros trace trace1 Hrej.
induction Hrej as [trace|b bs trace trace' trace'' Hb Hrej IH];
  intros branch post.
- apply run_Flow_call_cons.
- change ((b :: bs) ++ branch :: post) with (b :: (bs ++ branch :: post)).
  rewrite run_Flow_call_cons, Hb. apply IH.
Qed.

Lemma Flow_call_rejects d request branches : forall trace trace',
run d (Flow_call branches request) trace = (trace', Raise DoesNotAccept) <->
all_reject d request branches trace trace'.
Proof.
induction branches as [|b bs IH]; intros trace trace'.
- simpl. split.
  + intros [= <-]. constructor.
  + inversion 1; subst. reflexivity.
- rewrite run_Flow_call_cons. split.
  + destruct (run d (b request) trace) as [t [a|e]] eqn:Hb; [discriminate|].
    destruct e; try discriminate.
    intros H. econstructor; [exact Hb|]. apply IH. exact H.
  + inversion 1 as [|? ? ? t ? Hb Hrest]; subst. rewrite Hb. apply IH. exact Hrest.
Qed.

(** Either some branch is the first that does not reject, or all reject. *)
Lemma Flow_call_cases d request branches : forall trace,
(exists pre branch post trace1 trace2 outcome,
    branches = pre ++ branch :: post /\
    all_reject d request pre trace trace1 /\
    run d (branch request) trace1 = (trace2, outcome) /\
    outcome <> Raise DoesNotAccept) \/
(exists trace', all_reject d request branches trace trace').
Proof.
induction branches as [|b bs IH]; intros trace.
- right. exists trace. constructor.
- destruct (run d (b request) trace) as [t outcome] eqn:Hb.
  assert (Hdec : outcome = Raise DoesNotAccept \/ outcome <> Raise DoesNotAccept).
  { destruct outcome as [a|[]]; (left; reflexivity) || (right; discriminate). }
  destruct Hdec as [->|Hne].
  + destruct (IH t) as [(pre & br & post & t1 & t2 & o & -> & Hrej & Hrun & Ho)
                       |(t' & Hrej)].
    * left. exists (b :: pre), br, post, t1, t2, o.
      repeat split; auto. econstructor; eauto.
    * right. exists t'. econstructor; eauto.
  + left. exists [], b, bs, trace, t, outcome.
    repeat split; auto. constructor.
Qed.

(** [Flow.__call__] of a plain flow object is the loop over its branches;
  a guarded flow whose guard matches goes on in the same way. *)
Lemma call_PlainFlow fuel h self o request :
h !! self = Some o -> cls o = PlainFlow ->
call (S fuel) h self request
= Flow_call (map (call_branch (call fuel h)) (branches o)) request.
Proof. intros Hs Hc. simpl. rewrite Hs, Hc. reflexivity. Qed.

Lemma call_GuardedFlow fuel h self o guard request :
h !! self = Some o -> cls o = GuardedFlow guard ->
call (S fuel) h self request
= if guard request
  then Flow_call (map (call_branch (call fuel h)) (branches o)) request
  else Throw DoesNotAccept.
Proof. intros Hs Hc. simpl. rewrite Hs, Hc. destruct (guard request); reflexivity. Qed.

(** C1. A flow invoked with a request drives its branches in registration
  order: when the branches before some branch all reject and that branch
  does not, the flow finishes as that branch does, after the suspensions
  of those branches and of no later one; the flow rejects exactly when
  every branch rejects; and one of the two always happens. *)
Theorem Flow_call_first_match (d : driver) (branches : list (value -> gen value))
(request : value) (trace : list suspension) :
(forall pre branch post trace1 trace2 outcome,
   branches = pre ++ branch :: post ->
   all_reject d request pre trace trace1 ->
   run d (branch request) trace1 = (trace2, outcome) ->
   outcome <> Raise DoesNotAccept ->
   run d (Flow_call branches request) trace = (trace2, outcome)) /\
(forall trace',
   run d (Flow_call branches request) trace = (trace', Raise DoesNotAccept) <->
   all_reject d request branches trace trace') /\
((exists pre branch post trace1 trace2 outcome,
    branches = pre ++ branch :: post /\
    all_reject d request pre trace trace1 /\
    run d (branch request) trace1 = (trace2, outcome) /\
    outcome <> Raise DoesNotAccept) \/
 (exists trace', all_reject d request branches trace trace')).
Proof.
split; [|split].
- intros pre branch post trace1 trace2 outcome -> Hrej Hrun Hne.
  rewrite (Flow_call_first _ _ _ _ _ Hrej), Hrun.
  destruct outcome as [a|e]; [reflexivity|].
  destruct e; try reflexivity. congruence.
- apply Flow_call_rejects.
- apply Flow_call_cases.
Qed.

End Evaluation.

(** ** The parameters setter *)

Section Parameters.
Variable p : value.

Lemma updated_refl h : updated p h h.
Proof. split; auto. Qed.

Lemma updated_trans h1 h2 h3 :
  updated p h1 h2 -> updated p h2 h3 -> updated p h1 h3.
Proof.
  intros [L12 H12] [L23 H23]. split; [congruence|].
  intros n. destruct (H23 n) as [->| ->]; destruct (H12 n) as [->| ->]; auto.
  right. destruct (h1 !! n); reflexivity.
Qed.

Lemma updated_insert h self o :
  h !! self = Some o -> updated p h (<[self := with_parameters p o]> h).
Proof.
  intros Hs. split; [apply length_insert|].
  intros n. destruct (decide (self = n)) as [<-|Hne].
  - right. rewrite list_lookup_insert_eq by (eapply lookup_lt_Some; eauto).
    rewrite Hs. reflexivity.
  - left. apply list_lookup_insert_ne. exact Hne.
Qed.

Lemma updated_lookup h h' n o :
  updated p h h' -> h !! n = Some o ->
  exists o', h' !! n = Some o' /\ branches o' = branches o /\ cls o' = cls o /\
             (parameters o' = parameters o \/ parameters o' = p).
Proof.
  intros [_ H] Hn. destruct (H n) as [-> | ->]; rewrite Hn; simpl; eauto 10.
Qed.

Lemma updated_lookup_inv h h' n o' :
  updated p h h' -> h' !! n = Some o' ->
  exists o, h !! n = Some o /\ branches o' = branches o /\ cls o' = cls o.
Proof.
  intros [_ H] Hn. destruct (H n) as [E | E]; rewrite E in Hn.
  - eauto.
  - destruct (h !! n) as [o|]; [|discriminate].
    injection Hn as <-. eauto.
Qed.

Lemma updated_has_parameters h h' n :
  updated p h h' -> has_parameters p h n -> has_parameters p h' n.
Proof.
  intros Hu (o & Hn & Hp).
  destruct (updated_lookup _ _ _ _ Hu Hn) as (o' & Hn' & _ & _ & [E|E]);
    exists o'; (split; [exact Hn'|]); [rewrite E; exact Hp|exact E].
Qed.

Lemma updated_reach h h' a n :
  updated p h h' -> reach h a n -> reach h' a n.
Proof.
  intros Hu Hr. induction Hr as [|self o flow n Hs Hb _ IH]; [constructor|].
  destruct (updated_lookup _ _ _ _ Hu Hs) as (o' & Hs' & Hbr & _).
  econstructor; [exact Hs'| rewrite Hbr; exact Hb | exact IH].
Qed.

Lemma updated_reach_inv h h' a n :
  updated p h h' -> reach h' a n -> reach h a n.
Proof.
  intros Hu Hr. induction Hr as [|self o' flow n Hs Hb _ IH]; [constructor|].
  destruct (updated_lookup_inv _ _ _ _ Hu Hs) as (o & Hs' & Hbr & _).
  econstructor; [exact Hs'| rewrite <- Hbr; exact Hb | exact IH].
Qed.

Lemma updated_closed_under h h' Q :
  updated p h h' -> closed_under h Q -> closed_under h' Q.
Proof.
  intros Hu Hc l o' c Hl Hs Hb.
  destruct (updated_lookup_inv _ _ _ _ Hu Hs) as (o & Hs' & Hbr & _).
  eapply Hc; eauto. rewrite <- Hbr. exact Hb.
Qed.

Lemma updated_ranked rank h h' :
  updated p h h' -> ranked rank h -> ranked rank h'.
Proof.
  intros Hu Hr l o' c Hs Hb.
  destruct (updated_lookup_inv _ _ _ _ Hu Hs) as (o & Hs' & Hbr & _).
  destruct Hu as [-> _]. eapply Hr; eauto. rewrite <- Hbr. exact Hb.
Qed.

(** The setter only sets parameters, to [p]. *)
Lemma set_branches_updated set :
  (forall h l h', set h l = Some h' -> updated p h h') ->
  forall bs h h', set_branches set bs h = Some h' -> updated p h h'.
Proof.
  intros Hset. induction bs as [|[f|f i|l] bs IH]; intros h h'; simpl; eauto.
  - intros [= <-]. apply updated_refl.
  - destruct (set h l) as [h1|] eqn:Hl; [|discriminate].
    intros H. eapply updated_trans; eauto.
Qed.

Lemma set_parameters_updated fuel : forall h self h',
  set_parameters fuel p h self = Some h' -> updated p h h'.
Proof.
  induction fuel as [|fuel IH]; intros h self h'; simpl; [discriminate|].
  destruct (h !! self) as [o|] eqn:Hs; [|discriminate].
  intros H. eapply updated_trans; [apply updated_insert; exact Hs|].
  eapply set_branches_updated; [|exact H]. exact IH.
Qed.

(** It reaches every flow object below [self]. *)
Lemma set_branches_reach set :
  (forall h l h', set h l = Some h' ->
     updated p h h' /\ forall n, reach h l n -> has_parameters p h' n) ->
  forall bs h h', set_branches set bs h = Some h' ->
    forall c n, BFlow c ∈ bs -> reach h c n -> has_parameters p h' n.
Proof.
  intros Hset.
  assert (Hupd : forall bs h h', set_branches set bs h = Some h' -> updated p h h').
  { apply set_branches_updated. intros h l h' H. apply (Hset _ _ _ H). }
  induction bs as [|b bs IH]; intros h h' Hrun c n Hc Hr.
  - apply elem_of_nil in Hc. destruct Hc.
  - apply elem_of_cons in Hc. destruct b as [f|f i|l]; simpl in Hrun.
    + destruct Hc as [Hc|Hc]; [discriminate|]. eapply IH; eauto.
    + destruct Hc as [Hc|Hc]; [discriminate|]. eapply IH; eauto.
    + destruct (set h l) as [h1|] eqn:Hl; [|discriminate].
      destruct (Hset _ _ _ Hl) as [Hu Hp].
      destruct Hc as [[= ->]|Hc].
      * eapply updated_has_parameters; [eapply Hupd; exact Hrun|].
        apply Hp. exact Hr.
      * eapply IH; eauto. eapply updated_reach; eauto.
Qed.

Lemma set_parameters_reach fuel : forall h self h',
  set_parameters fuel p h self = Some h' ->
  forall n, reach h self n -> has_parameters p h' n.
Proof.
  induction fuel as [|fuel IH]; intros h self h'; simpl; [discriminate|].
  destruct (h !! self) as [o|] eqn:Hs; [|discriminate].
  intros Hrun n Hr.
  pose proof (updated_insert _ _ _ Hs) as Hu0.
  assert (Hu1 : updated p (<[self := with_parameters p o]> h) h').
  { eapply set_branches_updated; [|exact Hrun].
    intros ? ? ?; apply set_parameters_updated. }
  inversion Hr as [|? o1 c ? Hs1 Hc Hr1]; subst.
  - eapply updated_has_parameters; [exact Hu1|].
    exists (with_parameters p o). split; [|reflexivity].
    apply list_lookup_insert_eq. eapply lookup_lt_Some; eauto.
  - assert (o1 = o) as -> by congruence.
    eapply set_branches_reach; [|exact Hrun|exact Hc|].
    + intros h1 l h1' H. split; [eapply set_parameters_updated; eauto|].
      eapply IH; eauto.
    + eapply updated_reach; eauto.
Qed.

(** It leaves alone what is outside any set of addresses that holds
    [self] and that branch lists do not leave. *)
Lemma set_branches_frame set :
  (forall h l h', set h l = Some h' ->
     updated p h h' /\
     forall Q, Q l -> closed_under h Q -> forall n, ~ Q n -> h' !! n = h !! n) ->
  forall bs h h', set_branches set bs h = Some h' ->
    forall Q, (forall c, BFlow c ∈ bs -> Q c) -> closed_under h Q ->
      forall n, ~ Q n -> h' !! n = h !! n.
Proof.
  intros Hset.
  induction bs as [|b bs IH]; intros h h' Hrun Q Hin Hcl n Hn.
  - injection Hrun as <-. reflexivity.
  - assert (Hin' : forall c, BFlow c ∈ bs -> Q c).
    { intros c Hc. apply Hin. right. exact Hc. }
    destruct b as [f|f i|l]; simpl in Hrun; eauto.
    destruct (set h l) as [h1|] eqn:Hl; [|discriminate].
    destruct (Hset _ _ _ Hl) as [Hu Hf].
    rewrite (IH _ _ Hrun Q Hin' (updated_closed_under _ _ _ Hu Hcl) n Hn).
    apply (Hf Q); auto. apply Hin. left.
Qed.

Lemma set_parameters_frame fuel : forall h self h',
  set_parameters fuel p h self = Some h' ->
  forall Q, Q self -> closed_under h Q -> forall n, ~ Q n -> h' !! n = h !! n.
Proof.
  induction fuel as [|fuel IH]; intros h self h'; simpl; [discriminate|].
  destruct (h !! self) as [o|] eqn:Hs; [|discriminate].
  intros Hrun Q Hself Hcl n Hn.
  pose proof (updated_insert _ _ _ Hs) as Hu0.
  rewrite (set_branches_frame (set_parameters fuel p)) with
    (bs := branches o) (h := <[self := with_parameters p o]> h) (Q := Q); auto.
  - apply list_lookup_insert_ne. intros <-. contradiction.
  - intros h1 l h1' H. split; [eapply set_parameters_updated; eauto|].
    eapply IH; eauto.
  - intros c Hc. eapply Hcl; eauto.
  - eapply updated_closed_under; eauto.
Qed.

(** It returns on flows without cycles, within the rank of [self]. *)
Lemma set_branches_returns set rank fuel :
  (forall h l, ranked rank h -> l < length h -> rank l < fuel ->
     exists h', set h l = Some h' /\ updated p h h') ->
  forall bs h, ranked rank h ->
    (forall c, BFlow c ∈ bs -> c < length h /\ rank c < fuel) ->
    exists h', set_branches set bs h = Some h' /\ updated p h h'.
Proof.
  intros Hset. induction bs as [|b bs IH]; intros h Hr Hin.
  - exists h. split; [reflexivity|apply updated_refl].
  - assert (Hin' : forall h1, updated p h h1 ->
              forall c, BFlow c ∈ bs -> c < length h1 /\ rank c < fuel).
    { intros h1 [-> _] c Hc. apply Hin. right. exact Hc. }
    destruct b as [f|f i|l]; simpl.
    + apply IH; auto. apply Hin'. apply updated_refl.
    + apply IH; auto. apply Hin'. apply updated_refl.
    + destruct (Hin l) as [Hl Hk]; [left|].
      destruct (Hset h l Hr Hl Hk) as (h1 & -> & Hu).
      destruct (IH h1) as (h' & -> & Hu'); eauto using updated_ranked.
      exists h'. split; [reflexivity|]. eapply updated_trans; eauto.
Qed.

Lemma set_parameters_returns rank fuel : forall h self,
  ranked rank h -> self < length h -> rank self < fuel ->
  exists h', set_parameters fuel p h self = Some h' /\ updated p h h'.
Proof.
  induction fuel as [|fuel IH]; intros h self Hr Hs Hk; [lia|].
  cbn [set_parameters].
  destruct (lookup_lt_is_Some_2 h self Hs) as [o Ho]. rewrite Ho.
  pose proof (updated_insert _ _ _ Ho) as Hu0.
  destruct (set_branches_returns (set_parameters fuel p) rank fuel IH
              (branches o) (<[self := with_parameters p o]> h))
    as (h' & -> & Hu).
  - eapply updated_ranked; eauto.
  - intros c Hc. destruct (Hr _ _ _ Ho Hc) as [? ?].
    rewrite length_insert. split; [assumption|lia].
  - exists h'. split; [reflexivity|]. eapply updated_trans; eauto.
Qed.
End Parameters.

(** ** The descriptor *)

Section Descriptor.

Lemma length_append_branch self b h :
  length (append_branch self b h) = length h.
Proof.
  unfold append_branch. destruct (h !! self); [apply length_insert|reflexivity].
Qed.

Lemma append_branch_ne self b h l :
  l <> self -> append_branch self b h !! l = h !! l.
Proof.
  intros Hne. unfold append_branch. destruct (h !! self); [|reflexivity].
  apply list_lookup_insert_ne. congruence.
Qed.

Lemma append_branch_eq self b h o :
  h !! self = Some o ->
  append_branch self b h !! self = Some (with_branches (branches o ++ [b]) o).
Proof.
  intros Hs. unfold append_branch. rewrite Hs.
  apply list_lookup_insert_eq. eapply lookup_lt_Some; eauto.
Qed.

Lemma append_branch_lookup self b h l o' :
  append_branch self b h !! l = Some o' ->
  (l <> self /\ h !! l = Some o') \/
  (l = self /\ exists o, h !! l = Some o /\ o' = with_branches (branches o ++ [b]) o).
Proof.
  destruct (decide (l = self)) as [->|Hne].
  - destruct (h !! self) as [o|] eqn:Hs.
    + rewrite (append_branch_eq _ _ _ _ Hs). intros [= <-]. right. eauto.
    + unfold append_branch. rewrite Hs. congruence.
  - rewrite append_branch_ne by exact Hne. auto.
Qed.

Variables (base : loc) (instance : nat).

Lemma get_step_refl st : get_step base instance st st.
Proof. split; [|split]; auto. Qed.

Lemma get_step_trans st1 st2 st3 :
  get_step base instance st1 st2 -> get_step base instance st2 st3 ->
  get_step base instance st1 st3.
Proof.
  intros (L1 & H1 & D1) (L2 & H2 & D2). split; [|split].
  - lia.
  - intros l Hl. rewrite H2, H1; auto.
  - intros other Ho. rewrite D2, D1; auto.
Qed.




Lemma dict_get_set st key flow :
  dict_get (dict_set st instance key flow) instance key = Some flow.
Proof.
  unfold dict_get, dict_set. simpl. rewrite lookup_insert_eq. simpl.
  apply lookup_insert_eq.
Qed.


(** What [__get__] returns for an instance is what that instance holds
    under [__flow] afterwards. *)
Lemma get_caches fuel st self st' r :
  __get__ fuel (Some instance) st self = Some (st', r) ->
  dict_get st' instance "__flow" = Some r.
Proof.
  destruct fuel as [|fuel]; simpl; [discriminate|].
  destruct (dict_get st instance "__flow") as [c|] eqn:Hc.
  - intros [= <- <-]. exact Hc.
  - destruct (heap st !! self) as [o|]; [|discriminate].
    destruct (get_branches _ _ _ _ _) as [st1|]; [|discriminate].
    intros [= <- <-]. apply dict_get_set.
Qed.



End Descriptor.

(** ** The builders *)

Section Builders.


(** [then_delegate] returns its argument, appended to the branches of
    [self], after the setter has run on it. *)
Lemma then_delegate_spec fuel st self flow o st' r :
  heap st !! self = Some o ->
  then_delegate fuel st self flow = Some (st', r) ->
  r = flow /\
  (exists o', heap st' !! self = Some o' /\
              branches o' = branches o ++ [BFlow flow]) /\
  forall n, reach (heap st') flow n ->
    has_parameters (parameters o) (heap st') n.
Proof.
  intros Hs. unfold then_delegate. rewrite Hs.
  destruct (set_parameters fuel (parameters o)
              (append_branch self (BFlow flow) (heap st)) flow)
    as [h'|] eqn:Hset; [|discriminate].
  intros [= <- <-]. simpl. split; [reflexivity|].
  pose proof (set_parameters_updated _ _ _ _ _ Hset) as Hu. split.
  - destruct (updated_lookup _ _ _ _ _ Hu (append_branch_eq _ _ _ _ Hs))
      as (o' & Ho' & Hb & _).
    exists o'. split; [exact Ho'|exact Hb].
  - intros n Hr. eapply set_parameters_reach; [exact Hset|].
    eapply updated_reach_inv; eauto.
Qed.

(** On a new object, which has no branches, the setter returns at once. *)
Lemma then_delegate_new fuel st self o child :
  heap st !! self = Some o ->
  branches child = [] -> parameters child = parameters o ->
  exists st',
    then_delegate (S fuel) (with_heap (heap st ++ [child]) st) self
      (length (heap st)) = Some (st', length (heap st)) /\
    length (heap st') = S (length (heap st)) /\
    heap st' !! length (heap st) = Some child /\
    heap st' !! self
    = Some (with_branches (branches o ++ [BFlow (length (heap st))]) o) /\
    dicts st' = dicts st.
Proof.
  intros Hs Hb Hp.
  assert (Hlt : self < length (heap st)) by (eapply lookup_lt_Some; eauto).
  assert (Hs1 : (heap st ++ [child]) !! self = Some o).
  { rewrite lookup_app_l by exact Hlt. exact Hs. }
  unfold then_delegate. cbn [heap with_heap]. rewrite Hs1.
  set (h2 := append_branch self (BFlow (length (heap st))) (heap st ++ [child])).
  assert (Hc2 : h2 !! length (heap st) = Some child).
  { unfold h2. rewrite append_branch_ne by lia.
    apply list_lookup_middle. reflexivity. }
  assert (Hlen2 : length h2 = S (length (heap st))).
  { unfold h2. rewrite length_append_branch, length_app. simpl. lia. }
  cbn [set_parameters]. rewrite Hc2, Hb. cbn [set_branches].
  eexists. split; [reflexivity|]. cbn [heap with_heap dicts].
  assert (Hchild : with_parameters (parameters o) child = child).
  { destruct child; simpl in *. subst. reflexivity. }
  rewrite Hchild. split; [|split; [|split]].
  - rewrite length_insert. exact Hlen2.
  - apply list_lookup_insert_eq. lia.
  - rewrite list_lookup_insert_ne by lia. unfold h2.
    apply append_branch_eq. exact Hs1.
  - reflexivity.
Qed.

(** C6, as the code has it. [when] and [transform] return the flow object
    they create, and [then_delegate] the flow it is given, each appended
    as the last branch of the object they are called on, so that chained
    calls go deeper; [then_respond] and [then_pass_through] append a
    function, create no flow object and return the object they are called
    on. *)
Theorem builders_return_value (st : state) (self : loc) (o : flow_obj) :
  heap st !! self = Some o ->
  (forall fuel matcher, exists st',
      when (S fuel) st self matcher = Some (st', length (heap st)) /\
      length (heap st) <> self /\
      heap st' !! length (heap st)
      = Some {| cls := GuardedFlow matcher; parameters := parameters o;
                branches := [] |} /\
      heap st' !! self
      = Some (with_branches (branches o ++ [BFlow (length (heap st))]) o)) /\
  (forall fuel t, exists st',
      Flow_transform (S fuel) st self t = Some (st', length (heap st)) /\
      length (heap st) <> self /\
      heap st' !! length (heap st)
      = Some {| cls := TransformingFlow t; parameters := parameters o;
                branches := [] |} /\
      heap st' !! self
      = Some (with_branches (branches o ++ [BFlow (length (heap st))]) o)) /\
  (forall fuel flow st' r,
      then_delegate fuel st self flow = Some (st', r) ->
      r = flow /\
      exists o', heap st' !! self = Some o' /\
                 branches o' = branches o ++ [BFlow flow]) /\
  (forall r,
      then_respond st self r
      = (with_heap (<[self := with_branches
                                (branches o ++ [BFunction (respond_responder r)]) o]>
                      (heap st)) st, self)) /\
  (forall endpoint,
      then_pass_through st self endpoint
      = (with_heap (<[self := with_branches
                                (branches o
                                 ++ [BFunction (pass_through_responder endpoint)]) o]>
                      (heap st)) st, self)).
Proof.
  intros Hs.
  assert (Hlt : self < length (heap st)) by (eapply lookup_lt_Some; eauto).
  split; [|split; [|split; [|split]]].
  - intros fuel matcher. unfold when. rewrite Hs. cbn [alloc].
    destruct (then_delegate_new fuel st self o
                {| cls := GuardedFlow matcher; parameters := parameters o;
                   branches := [] |} Hs eq_refl eq_refl)
      as (st' & -> & _ & Hc & Hp & _).
    exists st'. repeat split; auto. lia.
  - intros fuel t. unfold Flow_transform. rewrite Hs. cbn [alloc].
    destruct (then_delegate_new fuel st self o
                {| cls := TransformingFlow t; parameters := parameters o;
                   branches := [] |} Hs eq_refl eq_refl)
      as (st' & -> & _ & Hc & Hp & _).
    exists st'. repeat split; auto. lia.
  - intros fuel flow st' r Hrun.
    destruct (then_delegate_spec _ _ _ _ _ _ _ Hs Hrun) as (? & ? & _). auto.
  - intros r. unfold then_respond, append_branch. rewrite Hs. reflexivity.
  - intros endpoint. unfold then_pass_through, append_branch. rewrite Hs.
    reflexivity.
Qed.


(** The same function bound to an instance, as a clone holds it, is
    called with the instance first: the request is kept when it is true,
    and a request that is false is replaced by the instance. *)
Lemma pass_through_bound_method call endpoint instance request :
  call_branch call (BMethod (pass_through_responder endpoint) instance) request
  = Yield endpoint (if truthy request then request else instance)
      (fun response => Return response).
Proof. simpl. destruct (truthy request); reflexivity. Qed.

(** C7. The setter gives the new parameters to every flow object reached
    from the object it is called on, keeps the branches, and returns when
    the flows have no cycle; [then_delegate] runs it on the flow it
    attaches, with the parameters the parent has at that moment. *)
Theorem parameters_reach_descendants (p : value) (h : list flow_obj) (self : loc) :
  (forall fuel h', set_parameters fuel p h self = Some h' ->
     forall n, reach h self n -> reach h' self n /\ has_parameters p h' n) /\
  (forall rank, ranked rank h -> self < length h ->
     exists h', set_parameters (S (rank self)) p h self = Some h') /\
  (forall fuel ds flow o st' r,
     h !! self = Some o ->
     then_delegate fuel {| heap := h; dicts := ds |} self flow = Some (st', r) ->
     r = flow /\
     (exists o', heap st' !! self = Some o' /\
                 branches o' = branches o ++ [BFlow flow]) /\
     forall n, reach (heap st') flow n ->
       has_parameters (parameters o) (heap st') n) /\
  (forall rank ds flow,
     ranked rank h -> self < length h -> flow < length h ->
     rank flow < rank self ->
     exists st',
       then_delegate (S (rank flow)) {| heap := h; dicts := ds |} self flow
       = Some (st', flow)).
Proof.
  split; [|split; [|split]].
  - intros fuel h' Hset n Hr. split.
    + eapply updated_reach; [eapply set_parameters_updated; eauto|exact Hr].
    + eapply set_parameters_reach; eauto.
  - intros rank Hr Hs.
    destruct (set_parameters_returns p rank (S (rank self)) h self)
      as (h' & Hset & _); eauto.
  - intros fuel ds flow o st' r Hs Hrun.
    eapply then_delegate_spec; [|exact Hrun]. exact Hs.
  - intros rank ds flow Hr Hs Hf Hlt.
    destruct (lookup_lt_is_Some_2 h self Hs) as [o Ho].
    unfold then_delegate. cbn [heap]. rewrite Ho.
    destruct (set_parameters_returns (parameters o) rank (S (rank flow))
                (append_branch self (BFlow flow) h) flow)
      as (h' & -> & _); [| |lia|eauto].
    + intros l o' c Hl Hc. rewrite length_append_branch.
      destruct (append_branch_lookup _ _ _ _ _ Hl)
        as [[_ Hl']|(-> & o1 & Hl' & ->)].
      * eapply Hr; eauto.
      * simpl in Hc. apply elem_of_app in Hc. destruct Hc as [Hc|Hc].
        -- eapply Hr; eauto.
        -- apply list_elem_of_singleton in Hc. injection Hc as ->. auto.
    + rewrite length_append_branch. exact Hf.
Qed.

End Builders.

(** ** Per-owner clones *)

Section Clones.





(** C9. What an owner is given is kept in its [__dict__] under the one
    key [__flow]: a first access clones the definition read and stores the
    clone, and every later access by that owner returns the stored object,
    whatever definition is read. With [two_definitions], owner [7] reads
    the first and then the second definition and is given the clone of
    the first, which answers [1] where the second definition answers [2].
    The branches of a definition are cloned through the same key: of
    [routes], the clone for owner [7] holds the clone of the first branch
    twice, and rejects the path that the second branch answers. *)
Theorem get_cache_has_one_key_per_owner :
  (forall fuel instance st self st' r,
     __get__ fuel (Some instance) st self = Some (st', r) ->
     dict_get st' instance "__flow" = Some r) /\
  (forall fuel instance st self c,
     dict_get st instance "__flow" = Some c ->
     __get__ (S fuel) (Some instance) st self = Some (st, c)) /\
  (exists stA,
     __get__ 2 (Some 7) Examples.two_definitions 0 = Some (stA, 2) /\
     __get__ 2 (Some 7) stA 1 = Some (stA, 2) /\
     run Examples.nine (call 2 (heap stA) 2 (VStr "/")) [] = ([], Ok (VInt 1)) /\
     run Examples.nine (call 2 (heap stA) 1 (VStr "/")) [] = ([], Ok (VInt 2))) /\
  (exists st' o,
     __get__ 3 (Some 7) Examples.routes 0 = Some (st', 3) /\
     heap st' !! 3 = Some o /\ branches o = [BFlow 4; BFlow 4] /\
     run Examples.nine (call 3 (heap st') 0 (VStr "/b")) [] = ([], Ok (VInt 2)) /\
     run Examples.nine (call 3 (heap st') 3 (VStr "/b")) []
     = ([], Raise DoesNotAccept)).
Proof.
  split; [|split; [|split]].
  - intros fuel instance st self st' r. apply get_caches.
  - intros fuel instance st self c Hc. simpl. rewrite Hc. reflexivity.
  - eexists. split; [vm_compute; reflexivity|].
    split; [vm_compute; reflexivity|].
    split; vm_compute; reflexivity.
  - eexists. eexists. split; [vm_compute; reflexivity|].
    split; [vm_compute; reflexivity|].
    split; [vm_compute; reflexivity|].
    split; vm_compute; reflexivity.
Qed.

End Clones.

(** ** The properties at work on small configurations *)

Section Instances.

(** [routes] is what the builders make: the second [when] is called on the
    root again, the first [then_respond] on what the first [when] returned. *)
Lemma routes_built :
  let '(st0, root) := Flow_init VNone Examples.empty in
  exists st1 a st3 b,
    when 1 st0 root (Examples.is_path "/a") = Some (st1, a) /\
    when 1 (fst (then_respond st1 a (Constant (VInt 1)))) root
         (Examples.is_path "/b") = Some (st3, b) /\
    fst (then_respond st3 b (Constant (VInt 2))) = Examples.routes.
Proof.
  simpl. eexists; eexists; eexists; eexists.
  split; [reflexivity|]. split; reflexivity.
Qed.

Lemma chain_ranked : ranked Examples.chain_rank Examples.chain.
Proof.
  intros l o c Hl Hc. heap_cases l Hl; simpl in Hc; branch_cases Hc;
    unfold Examples.chain_rank; simpl; lia.
Qed.



(** Not every builder returns a new child: [then_respond] on the flow at
    [0] returns [0], the object it was called on, and creates no flow
    object; a second call chained on the result adds a sibling branch to
    that same object. *)
Lemma then_respond_returns_self :
  let st := Examples.two_definitions in
  let '(st1, r1) := then_respond st 0 (Constant (VInt 3)) in
  let '(st2, r2) := then_respond st1 r1 (Constant (VInt 4)) in
  r1 = 0 /\ r2 = 0 /\
  length (heap st2) = length (heap st) /\
  branches <$> heap st2 !! 0
  = Some [BFunction (respond_responder (Constant (VInt 1)));
          BFunction (respond_responder (Constant (VInt 3)));
          BFunction (respond_responder (Constant (VInt 4)))].
Proof. repeat split. Qed.

Lemma builders_return_value_witness :
  heap Examples.routes !! 0
  = Some {| cls := PlainFlow; parameters := VNone;
            branches := [BFlow 1; BFlow 2] |} /\
  (exists st', when 1 Examples.routes 0 (Examples.is_path "/c") = Some (st', 3)) /\
  snd (then_pass_through Examples.routes 0 "remote") = 0.
Proof.
  split; [reflexivity|].
  destruct (builders_return_value Examples.routes 0 _ eq_refl)
    as (Hwhen & _ & _ & _ & Hpass).
  split.
  - destruct (Hwhen 0 (Examples.is_path "/c")) as (st' & H & _).
    exists st'. exact H.
  - rewrite Hpass. reflexivity.
Defined.

Lemma Flow_call_first_match_witness :
  let rejecting := respond_responder (Callable (fun _ => Raise DoesNotAccept)) in
  let branches :=
    map (call_branch (call 0 []))
        [BFunction rejecting;
         BFunction (pass_through_responder "remote");
         BFunction (respond_responder (Constant (VInt 5)))] in
  run Examples.nine (Flow_call branches (VStr "/")) []
  = ([("remote", VStr "/")], Ok (VInt 9)).
Proof.
  intros rejecting branches.
  destruct (Flow_call_first_match Examples.nine branches (VStr "/") [])
    as (H & _ & _).
  apply (H [call_branch (call 0 []) (BFunction rejecting)]
           (call_branch (call 0 []) (BFunction (pass_through_responder "remote")))
           [call_branch (call 0 [])
              (BFunction (respond_responder (Constant (VInt 5))))]
           []).
  - reflexivity.
  - econstructor; [reflexivity|constructor].
  - reflexivity.
  - discriminate.
Defined.


Lemma parameters_reach_descendants_witness :
  ranked Examples.chain_rank Examples.chain /\
  exists h', set_parameters 4 (VInt 8) Examples.chain 0 = Some h' /\
             has_parameters (VInt 8) h' 2.
Proof.
  split; [exact chain_ranked|].
  destruct (parameters_reach_descendants (VInt 8) Examples.chain 0)
    as (Hreach & Hret & _).
  destruct (Hret Examples.chain_rank chain_ranked) as [h' Hset].
  { simpl. lia. }
  exists h'. split; [exact Hset|].
  apply (Hreach _ _ Hset).
  eapply reach_branch; [reflexivity|left|].
  eapply reach_branch; [reflexivity|left|]. constructor.
Defined.


Lemma get_cache_has_one_key_per_owner_witness :
  let st := dict_set Examples.two_definitions 7 "__flow" 0 in
  dict_get st 7 "__flow" = Some 0 /\
  __get__ 1 (Some 7) st 1 = Some (st, 0).
Proof.
  intros st. split; [reflexivity|].
  destruct get_cache_has_one_key_per_owner as (_ & Hcached & _).
  apply Hcached. reflexivity.
Defined.

End Instances.

(** * Further properties of the code *)

(** ** Transforms and composition of flows *)

Section TransformStage.

(** Driving [a = yield from g; k a]: the suspensions of [g], then [k] on
    what [g] returned; what [g] raises is raised. *)
Lemma run_yield_from {A B : Type} (d : driver) (g : gen A) (k : A -> gen B) :
  forall trace,
    run d (yield_from g k) trace =
    match run d g trace with
    | (trace', Ok a) => run d (k a) trace'
    | (trace', Raise e) => (trace', Raise e)
    end.
Proof.
  induction g as [a|e|endpoint message resume IH]; intros trace; simpl.
  - reflexivity.
  - reflexivity.
  - apply IH.
Qed.

(** A handler that rejects changes nothing. *)
Lemma run_except_reject {A : Type} (d : driver) (g : gen A) trace :
  run d (except_DoesNotAccept g (Throw DoesNotAccept)) trace = run d g trace.
Proof.
  rewrite run_except_DoesNotAccept.
  destruct (run d g trace) as [t [a|[]]]; reflexivity.
Qed.

(** X1. [Transform.transform] of the base class. A request hook that returns a
    false value rejects before the chain is entered, with no suspension.
    Otherwise the chain is driven once on the new request: its suspensions
    are those of the transform, what it raises (a rejection too) is raised
    unchanged, and what it returns goes through the response hook together
    with the new and the original request. *)
Theorem Transform_transform_run
  (transform_request : value -> nat -> value)
  (transform_response : value -> value -> value -> nat -> value)
  (request : value) (proxy : nat) (next_in_chain : value -> gen value)
  (d : driver) (trace : list suspension) :
  run d (Transform_transform transform_request transform_response
           request proxy next_in_chain) trace =
  let new_request := transform_request request proxy in
  if truthy new_request then
    match run d (next_in_chain new_request) trace with
    | (trace', Ok response) =>
        (trace', Ok (transform_response new_request response request proxy))
    | (trace', Raise e) => (trace', Raise e)
    end
  else (trace, Raise DoesNotAccept).
Proof.
  unfold Transform_transform. cbn zeta.
  destruct (truthy (transform_request request proxy)); simpl; [|reflexivity].
  rewrite run_yield_from.
  destruct (run d (next_in_chain (transform_request request proxy)) trace)
    as [t [a|e]]; reflexivity.
Qed.

(** X2. A [TransformingFlow] with the hooks of the base class answers a true
    request as the plain loop over its branches does, and rejects a false
    request (an empty suds object, [None], [0]) without trying any
    branch. *)
Theorem TransformingFlow_default_call (fuel : nat) (h : list flow_obj)
  (self : nat) (o : flow_obj) (request : value) (d : driver)
  (trace : list suspension) :
  h !! self = Some o ->
  cls o = TransformingFlow default_Transform ->
  run d (call (S fuel) h self request) trace =
  if truthy request
  then run d (Flow_call (map (call_branch (call fuel h)) (branches o)) request)
         trace
  else (trace, Raise DoesNotAccept).
Proof.
  intros Hs Hc. cbn [call]. rewrite Hs, Hc. cbn [transform default_Transform].
  rewrite Transform_transform_run. cbn zeta.
  destruct (truthy request); [|reflexivity].
  destruct (run d _ trace) as [t [a|e]]; reflexivity.
Qed.

(** The loop of [Flow.__call__] over [bs1 ++ bs2] is the loop over [bs1]
    and, when that rejects, the loop over [bs2] from the trace reached. *)
Lemma run_Flow_call_app d request bs1 : forall bs2 trace,
  run d (Flow_call (bs1 ++ bs2) request) trace =
  match run d (Flow_call bs1 request) trace with
  | (trace', Raise DoesNotAccept) => run d (Flow_call bs2 request) trace'
  | finished => finished
  end.
Proof.
  induction bs1 as [|b bs1 IH]; intros bs2 trace.
  - reflexivity.
  - change ((b :: bs1) ++ bs2) with (b :: (bs1 ++ bs2)).
    rewrite !run_Flow_call_cons.
    destruct (run d (b request) trace) as [t [a|e]]; [reflexivity|].
    destruct e; try reflexivity. apply IH.
Qed.

(** X3. A plain flow attached as a branch is worth its own branches written in
    its place: for every driver the two flows issue the same suspensions
    and finish alike. *)
Theorem Flow_call_inline (d : driver) (request : value)
  (pre inner post : list (value -> gen value)) (trace : list suspension) :
  run d (Flow_call (pre ++ Flow_call inner :: post) request) trace =
  run d (Flow_call (pre ++ inner ++ post) request) trace.
Proof.
  rewrite !run_Flow_call_app.
  destruct (run d (Flow_call pre request) trace) as [t [a|e]]; [reflexivity|].
  destruct e; try reflexivity.
  rewrite run_Flow_call_cons, run_Flow_call_app. reflexivity.
Qed.

End TransformStage.

(** ** Guarded responders *)

Section GuardedResponder.



End GuardedResponder.

(** ** What the descriptor leaves alone, and what a clone looks like *)

Section CloneShape.

Variable instance : nat.

Lemma get_step_weaken base base' st st' :
  base <= base' -> get_step base' instance st st' -> get_step base instance st st'.
Proof.
  intros Hle (Hlen & Hold & Hd). split; [exact Hlen|]. split; [|exact Hd].
  intros l Hl. apply Hold. lia.
Qed.

Lemma get_step_append base new_flow b st :
  base <= new_flow ->
  get_step base instance st (with_heap (append_branch new_flow b (heap st)) st).
Proof.
  intros Hle. split; [|split]; simpl.
  - rewrite length_append_branch. lia.
  - intros l Hl. apply append_branch_ne. lia.
  - auto.
Qed.

Lemma get_branches_step get base new_flow :
  (forall st l st' r, get st l = Some (st', r) ->
     get_step (length (heap st)) instance st st') ->
  base <= new_flow ->
  forall bs st st',
    base <= length (heap st) ->
    get_branches get instance new_flow bs st = Some st' ->
    get_step base instance st st'.
Proof.
  intros Hget Hnew. induction bs as [|b bs IH]; intros st st' Hbase Hrun.
  - injection Hrun as <-. apply get_step_refl.
  - destruct b as [f|f i|l]; simpl in Hrun.
    + eapply get_step_trans; [apply get_step_append; exact Hnew|].
      apply IH; [|exact Hrun]. simpl. rewrite length_append_branch. exact Hbase.
    + eapply get_step_trans; [apply get_step_append; exact Hnew|].
      apply IH; [|exact Hrun]. simpl. rewrite length_append_branch. exact Hbase.
    + destruct (get st l) as [[st1 r]|] eqn:Hl; [|discriminate].
      pose proof (Hget _ _ _ _ Hl) as Hs1.
      assert (Hlen1 : length (heap st) <= length (heap st1)) by apply Hs1.
      eapply get_step_trans; [eapply get_step_weaken; [|exact Hs1]; exact Hbase|].
      eapply get_step_trans; [apply get_step_append; exact Hnew|].
      apply IH; [|exact Hrun]. simpl. rewrite length_append_branch. lia.
Qed.

Lemma get_step_existing fuel : forall st self st' r,
  __get__ fuel (Some instance) st self = Some (st', r) ->
  get_step (length (heap st)) instance st st'.
Proof.
  induction fuel as [|fuel IH]; intros st self st' r; simpl; [discriminate|].
  destruct (dict_get st instance "__flow") as [c|] eqn:Hc.
  - intros [= <- <-]. apply get_step_refl.
  - destruct (heap st !! self) as [o|] eqn:Hs; [|discriminate].
    destruct (get_branches (__get__ fuel (Some instance)) instance
                (length (heap st)) (branches o)
                (with_heap (heap st ++ [with_branches [] o]) st))
      as [st1|] eqn:Hloop; [|discriminate].
    intros [= <- <-].
    apply (get_branches_step _ (length (heap st)) _ IH (Nat.le_refl _)) in Hloop.
    2:{ simpl. rewrite length_app. lia. }
    destruct Hloop as (Hlen & Hold & Hd). simpl in Hlen, Hold, Hd.
    rewrite length_app in Hlen. simpl in Hlen.
    split; [simpl; lia|]. split; simpl.
    + intros l Hl. rewrite Hold by exact Hl. apply lookup_app_l. exact Hl.
    + intros other Hne. rewrite lookup_insert_ne by congruence. auto.
Qed.

Lemma get_cached fuel st self c st' r :
  dict_get st instance "__flow" = Some c ->
  __get__ fuel (Some instance) st self = Some (st', r) ->
  st' = st /\ r = c.
Proof.
  intros Hc. destruct fuel as [|fuel]; simpl; [discriminate|]. rewrite Hc.
  intros [= <- <-]. auto.
Qed.

Lemma with_branches_twice bs bs' o :
  with_branches bs (with_branches bs' o) = with_branches bs o.
Proof. reflexivity. Qed.


(** Once a flow branch has been cloned, its clone sits under [__flow] and
    is what every later flow branch gets. *)
Lemma get_branches_alias fuel new_flow :
  forall bs st st' onew,
    heap st !! new_flow = Some onew ->
    (forall x, BFlow x ∈ branches onew ->
       dict_get st instance "__flow" = Some x) ->
    get_branches (__get__ fuel (Some instance)) instance new_flow bs st
    = Some st' ->
    exists onew',
      heap st' !! new_flow = Some onew' /\
      forall x, BFlow x ∈ branches onew' ->
        dict_get st' instance "__flow" = Some x.
Proof.
  induction bs as [|b bs IH]; intros st st' onew Hnew Hinv Hrun.
  - injection Hrun as <-. eauto.
  - assert (Hlt : new_flow < length (heap st)) by (eapply lookup_lt_Some; eauto).
    destruct b as [f|f i|l]; simpl in Hrun.
    + eapply (IH (with_heap (append_branch new_flow
                               (BMethod f (VRef instance)) (heap st)) st));
        [apply (append_branch_eq _ _ _ _ Hnew)| |exact Hrun].
      intros x Hx. simpl in Hx. apply elem_of_app in Hx.
      destruct Hx as [Hx|Hx]; [apply (Hinv x Hx)|].
      apply list_elem_of_singleton in Hx. discriminate.
    + eapply (IH (with_heap (append_branch new_flow (BMethod f i) (heap st)) st));
        [apply (append_branch_eq _ _ _ _ Hnew)| |exact Hrun].
      intros x Hx. simpl in Hx. apply elem_of_app in Hx.
      destruct Hx as [Hx|Hx]; [apply (Hinv x Hx)|].
      apply list_elem_of_singleton in Hx. discriminate.
    + destruct (__get__ fuel (Some instance) st l) as [[st1 r]|] eqn:Hgl;
        [|discriminate].
      pose proof (get_caches _ _ _ _ _ _ Hgl) as Hcache.
      destruct (get_step_existing _ _ _ _ _ Hgl) as (_ & Hold & _).
      assert (Hnew1 : heap st1 !! new_flow = Some onew)
        by (rewrite Hold by exact Hlt; exact Hnew).
      eapply (IH (with_heap (append_branch new_flow (BFlow r) (heap st1)) st1));
        [apply (append_branch_eq _ (BFlow r) _ _ Hnew1)| |exact Hrun].
      intros x Hx. simpl in Hx. apply elem_of_app in Hx.
      change (dict_get st1 instance "__flow" = Some x).
      destruct Hx as [Hx|Hx].
      * pose proof (Hinv x Hx) as Hc.
        destruct (get_cached _ _ _ _ _ _ Hc Hgl) as [-> _]. exact Hc.
      * apply list_elem_of_singleton in Hx. injection Hx as ->. exact Hcache.
Qed.


(** X7. In the clone made on a first access all the flow branches are one and the same object: the
    clone made for the first flow branch is stored under [__flow] and
    handed out for every flow branch after it. *)
Theorem get_clone_flow_branches_alias (fuel : nat) (st : state) (self : nat)
  (st' : state) (r : nat) :
  dict_get st instance "__flow" = None ->
  __get__ fuel (Some instance) st self = Some (st', r) ->
  exists o',
    heap st' !! r = Some o' /\
    forall c1 c2, BFlow c1 ∈ branches o' -> BFlow c2 ∈ branches o' -> c1 = c2.
Proof.
  intros Hc. destruct fuel as [|fuel]; simpl; [discriminate|]. rewrite Hc.
  destruct (heap st !! self) as [o|] eqn:Hs; [|discriminate].
  destruct (get_branches (__get__ fuel (Some instance)) instance
              (length (heap st)) (branches o)
              (with_heap (heap st ++ [with_branches [] o]) st))
    as [st1|] eqn:Hloop; [|discriminate].
  intros [= <- <-].
  destruct (get_branches_alias _ _ _
              (with_heap (heap st ++ [with_branches [] o]) st) _
              (with_branches [] o)
              (list_lookup_middle (heap st) [] (with_branches [] o) _ eq_refl)
              (fun x (Hx : BFlow x ∈ []) =>
                 match proj1 (elem_of_nil _) Hx with end)
              Hloop) as (o' & Hl & Hall).
  exists o'. split; [exact Hl|].
  intros c1 c2 H1 H2. apply Hall in H1. apply Hall in H2. congruence.
Qed.

End CloneShape.

Section DescriptorFrame.

(** X5. Reading a flow through the descriptor never changes an object that
    exists: the definition, its sub-flows and the clones of every owner
    stay as they are; only new objects are added, and only the
    [__dict__] of the reading instance is written. *)
Theorem get_keeps_existing (fuel : nat) (reader : option nat) (st : state)
  (self : nat) (st' : state) (r : nat) :
  __get__ fuel reader st self = Some (st', r) ->
  length (heap st) <= length (heap st') /\
  (forall l, l < length (heap st) -> heap st' !! l = heap st !! l) /\
  (forall other, reader <> Some other -> dicts st' !! other = dicts st !! other).
Proof.
  destruct reader as [inst|].
  - intros Hrun.
    destruct (get_step_existing inst _ _ _ _ _ Hrun) as (H1 & H2 & H3).
    split; [exact H1|]. split; [exact H2|].
    intros other Hne. apply H3. congruence.
  - destruct fuel as [|fuel]; [discriminate|]. intros [= <- <-]. auto.
Qed.

End DescriptorFrame.

(** ** More on the parameters setter *)

Section SetterEffect.

Variable p : value.

Lemma reach_snoc h a l o c :
  reach h a l -> h !! l = Some o -> BFlow c ∈ branches o -> reach h a c.
Proof.
  intros Hr Hl Hc. induction Hr as [l|a oa b l Ha Hb _ IH].
  - econstructor; [exact Hl|exact Hc|constructor].
  - econstructor; [exact Ha|exact Hb|]. apply IH; assumption.
Qed.

Lemma reach_trans h a b c : reach h a b -> reach h b c -> reach h a c.
Proof.
  intros Hab Hbc. induction Hab as [|a oa x b Ha Hx _ IH]; [exact Hbc|].
  econstructor; [exact Ha|exact Hx|]. apply IH. exact Hbc.
Qed.

Lemma with_parameters_same o : with_parameters (parameters o) o = o.
Proof. destruct o; reflexivity. Qed.

(** X10. What the setter does, object by object: below the object it is called
    on, the parameters are replaced and class and branches are kept;
    everywhere else nothing changes. *)
Theorem set_parameters_exact (fuel : nat) (h : list flow_obj) (self : nat)
  (h' : list flow_obj) :
  set_parameters fuel p h self = Some h' ->
  length h' = length h /\
  forall n,
    (reach h self n -> h' !! n = with_parameters p <$> h !! n) /\
    (~ reach h self n -> h' !! n = h !! n).
Proof.
  intros Hset.
  pose proof (set_parameters_updated _ _ _ _ _ Hset) as [Hlen Hu].
  split; [exact Hlen|]. intros n. split.
  - intros Hr.
    destruct (set_parameters_reach _ _ _ _ _ Hset n Hr) as (o' & Ho' & Hp).
    destruct (Hu n) as [E|E]; [|exact E].
    rewrite <- E, Ho'. simpl. rewrite <- Hp, with_parameters_same. reflexivity.
  - intros Hn.
    apply (set_parameters_frame _ _ _ _ _ Hset (reach h self)).
    + constructor.
    + intros l o c Hl Ho Hc. eapply reach_snoc; eauto.
    + exact Hn.
Qed.

Lemma same_shape_of_updated h h1 h2 :
  updated p h h1 -> same_shape h h2 -> same_shape h1 h2.
Proof.
  intros Hu [Hlen Hs]. split; [destruct Hu; congruence|].
  intros n o1 Hn. destruct (updated_lookup_inv _ _ _ _ _ Hu Hn) as (o & Ho & Hb & _).
  destruct (Hs _ _ Ho) as (o2 & Ho2 & Hb2). exists o2. split; [exact Ho2|congruence].
Qed.

Lemma set_branches_stable set :
  (forall h l h', set h l = Some h' ->
     updated p h h' /\
     forall h2, same_shape h h2 ->
       (forall n, reach h l n -> has_parameters p h2 n) ->
       set h2 l = Some h2) ->
  forall bs h h', set_branches set bs h = Some h' ->
    forall h2, same_shape h h2 ->
      (forall c n, BFlow c ∈ bs -> reach h c n -> has_parameters p h2 n) ->
      set_branches set bs h2 = Some h2.
Proof.
  intros Hset. induction bs as [|b bs IH]; intros h h' Hrun h2 Hs Hp.
  - reflexivity.
  - assert (Hp' : forall h1, updated p h h1 ->
              forall c n, BFlow c ∈ bs -> reach h1 c n -> has_parameters p h2 n).
    { intros h1 Hu c n Hc Hr. apply (Hp c n); [right; exact Hc|].
      eapply updated_reach_inv; eauto. }
    destruct b as [f|f i|l]; simpl in Hrun |- *.
    + eapply IH; eauto. apply Hp'. apply updated_refl.
    + eapply IH; eauto. apply Hp'. apply updated_refl.
    + destruct (set h l) as [h1|] eqn:Hl; [|discriminate].
      destruct (Hset _ _ _ Hl) as [Hu Hst].
      rewrite (Hst h2 Hs); [|intros n Hr; apply (Hp l n); [left|exact Hr]].
      eapply IH; [exact Hrun|eapply same_shape_of_updated; eauto|].
      apply Hp'. exact Hu.
Qed.

Lemma set_parameters_stable fuel : forall h self h',
  set_parameters fuel p h self = Some h' ->
  forall h2, same_shape h h2 ->
    (forall n, reach h self n -> has_parameters p h2 n) ->
    set_parameters fuel p h2 self = Some h2.
Proof.
  induction fuel as [|fuel IH]; intros h self h'; simpl; [discriminate|].
  destruct (h !! self) as [o|] eqn:Hs; [|discriminate].
  intros Hrun h2 Hsh Hp.
  pose proof Hsh as [Hlen Hshape].
  destruct (Hshape _ _ Hs) as (o2 & Ho2 & Hb2).
  destruct (Hp self (reach_self _ _)) as (o2' & Ho2' & Hpar).
  assert (o2' = o2) as -> by congruence.
  rewrite Ho2, Hb2.
  assert (Hid : <[self := with_parameters p o2]> h2 = h2).
  { rewrite <- Hpar, with_parameters_same. apply list_insert_id. exact Ho2. }
  rewrite Hid.
  pose proof (updated_insert p _ _ _ Hs) as Hu0.
  eapply (set_branches_stable (set_parameters fuel p)); [|exact Hrun| |].
  - intros h1 l h1' H. split; [eapply set_parameters_updated; eauto|].
    intros h3 Hs3 Hp3. eapply IH; eauto.
  - eapply same_shape_of_updated; eauto.
  - intros c n Hc Hr. apply Hp.
    econstructor; [exact Hs|exact Hc|]. eapply updated_reach_inv; eauto.
Qed.

(** X11. Setting the same parameters a second time changes nothing, and returns
    whenever the first assignment did. *)
Theorem set_parameters_idempotent (fuel : nat) (h : list flow_obj) (self : nat)
  (h' : list flow_obj) :
  set_parameters fuel p h self = Some h' ->
  set_parameters fuel p h' self = Some h'.
Proof.
  intros Hset.
  pose proof (set_parameters_updated _ _ _ _ _ Hset) as Hu.
  eapply set_parameters_stable; [exact Hset| |].
  - split; [apply Hu|]. intros n o Hn.
    destruct (updated_lookup _ _ _ _ _ Hu Hn) as (o' & Ho' & Hb & _). eauto.
  - intros n Hr. eapply set_parameters_reach; eauto.
Qed.

(** A flow that can be reached from one of its own branches is on a
    cycle. The setter never returns on such a flow, whatever the depth
    allowed. *)
Lemma set_branches_cycle set c :
  (forall h l h', set h l = Some h' -> updated p h h') ->
  forall bs h,
    BFlow c ∈ bs ->
    (forall h1, updated p h h1 -> set h1 c = None) ->
    set_branches set bs h = None.
Proof.
  intros Hupd. induction bs as [|b bs IH]; intros h Hc Hnone.
  - apply elem_of_nil in Hc. destruct Hc.
  - apply elem_of_cons in Hc.
    destruct b as [f|f i|l]; simpl.
    + destruct Hc as [Hc|Hc]; [discriminate|]. apply IH; auto.
    + destruct Hc as [Hc|Hc]; [discriminate|]. apply IH; auto.
    + destruct (set h l) as [h1|] eqn:Hl; [|reflexivity].
      destruct Hc as [[= ->]|Hc].
      * rewrite (Hnone h (updated_refl p h)) in Hl. discriminate.
      * apply IH; [exact Hc|].
        intros h2 Hu2. apply Hnone. eapply updated_trans; eauto.
Qed.

Lemma set_parameters_cycle fuel : forall h self o c,
  h !! self = Some o -> BFlow c ∈ branches o -> reach h c self ->
  set_parameters fuel p h self = None.
Proof.
  induction fuel as [|fuel IH]; intros h self o c Hs Hc Hr; simpl; [reflexivity|].
  rewrite Hs.
  apply (set_branches_cycle (set_parameters fuel p) c);
    [intros ? ? ?; apply set_parameters_updated|exact Hc|].
  intros h1 Hu1.
  assert (Hu : updated p h h1).
  { eapply updated_trans; [apply updated_insert; exact Hs|exact Hu1]. }
  assert (Hedge : reach h self c).
  { econstructor; [exact Hs|exact Hc|constructor]. }
  inversion Hr as [|? oc c' ? Hoc Hc' Hr']; subst.
  - destruct (updated_lookup _ _ _ _ _ Hu Hs) as (o1 & Ho1 & Hb1 & _).
    eapply IH; [exact Ho1|rewrite Hb1; exact Hc|].
    eapply updated_reach; eauto.
  - destruct (updated_lookup _ _ _ _ _ Hu Hoc) as (o1 & Ho1 & Hb1 & _).
    eapply IH; [exact Ho1|rewrite Hb1; exact Hc'|].
    eapply updated_reach; [exact Hu|]. eapply reach_trans; eauto.
Qed.

End SetterEffect.

Section Cycles.

(** X12. Attaching with [then_delegate] a flow from which the parent can be
    reached (the parent itself, or one of its ancestors) never returns: the
    branch is appended and the setter then goes round the cycle until the
    recursion limit. So does every later assignment of parameters to a
    flow on the cycle. *)
Theorem then_delegate_cycle_never_returns :
  (forall st self flow fuel,
     reach (heap st) flow self ->
     then_delegate fuel st self flow = None) /\
  (forall fuel p o c h self,
     h !! self = Some o -> BFlow c ∈ branches o -> reach h c self ->
     set_parameters fuel p h self = None).
Proof.
  split.
  - intros st self flow fuel Hr. unfold then_delegate.
    destruct (heap st !! self) as [o|] eqn:Hs; [|reflexivity].
    assert (Hsame : forall a b, reach (heap st) a b ->
              reach (append_branch self (BFlow flow) (heap st)) a b).
    { intros a b Hab. induction Hab as [|a oa x b Ha Hx _ IH]; [constructor|].
      destruct (decide (a = self)) as [->|Hne].
      - assert (oa = o) as -> by congruence.
        econstructor; [apply append_branch_eq; exact Hs| |exact IH].
        simpl. apply elem_of_app. left. exact Hx.
      - econstructor; [rewrite append_branch_ne by exact Hne; exact Ha
                      |exact Hx|exact IH]. }
    assert (Hedge : reach (append_branch self (BFlow flow) (heap st)) self flow).
    { econstructor; [apply append_branch_eq; exact Hs| |constructor].
      simpl. apply elem_of_app. right. left. }
    enough (set_parameters fuel (parameters o)
              (append_branch self (BFlow flow) (heap st)) flow = None) as ->
      by reflexivity.
    apply Hsame in Hr.
    inversion Hr as [|? ofl c' ? Hof Hc' Hr']; subst.
    + eapply set_parameters_cycle;
        [apply append_branch_eq; exact Hs| |constructor].
      simpl. apply elem_of_app. right. left.
    + eapply set_parameters_cycle; [exact Hof|exact Hc'|].
      eapply reach_trans; eauto.
  - intros fuel p o c h self. apply set_parameters_cycle.
Qed.

End Cycles.

(** ** More on the structural matcher *)

Section MatcherShapes.

Lemma value_nested_ind (P : value -> Prop) :
  P VNone -> (forall n, P (VInt n)) -> (forall s, P (VStr s)) ->
  (forall xs, Forall P xs -> P (VList xs)) ->
  (forall kvs, P (VDict kvs)) -> (forall c fs, P (VObject c fs)) ->
  (forall i, P (VRef i)) ->
  forall v, P v.
Proof.
  intros HN HI HS HL HD HO HR. fix IH 1.
  intros [| | |xs| | |];
    [exact HN|apply HI|apply HS| |apply HD|apply HO|apply HR].
  apply HL. induction xs as [|x xs IHxs]; constructor; [apply IH|exact IHxs].
Qed.






Lemma existsb_flat_map {A B : Type} (f : B -> bool) (g : A -> list B) xs :
  existsb f (flat_map g xs) = existsb (fun x => existsb f (g x)) xs.
Proof.
  induction xs as [|x xs IH]; simpl; [reflexivity|].
  rewrite existsb_app, IH. reflexivity.
Qed.

(** With a matcher that answers [f] on the elements, the [while] loop
    breaks exactly when some element satisfies [f]. *)
Lemma scan_existsb {P : Type} (om : P -> value -> bool -> result bool)
  p strict (f : value -> bool) rest :
  Forall (fun x => om p x strict = Ok (f x)) rest ->
  forall item_index,
    match scan om p strict rest item_index with
    | Ok (Some _) => existsb f rest = true
    | Ok None => existsb f rest = false
    | Raise _ => False
    end.
Proof.
  induction 1 as [|x rest Hx _ IH]; intros item_index; simpl; [reflexivity|].
  rewrite Hx. destruct (f x); simpl; [reflexivity|apply IH].
Qed.

(** X14. A pattern without parts (a scalar, a matcher, a callable) is tested
    on the actual itself in strict mode; in loose mode it is looked for
    among the values inside the actual, the lists being opened to any
    depth, so that an empty list matches nothing. *)
Theorem atomic_pattern_searches_lists (p : pattern) (test : value -> bool) :
  atom_test p = Some test ->
  forall item,
    object_matches p item true = Ok (test item) /\
    object_matches p item false = Ok (existsb test (leaves item)).
Proof.
  intros Hp.
  assert (Hbase : forall item strict,
            match item, strict with
            | VList _, false => True
            | _, _ => object_matches p item strict = Ok (test item)
            end).
  { intros item strict. rewrite object_matches_eq.
    destruct p; try discriminate; injection Hp as <-;
      destruct item, strict; try exact I; reflexivity. }
  assert (Hnl : forall ps, p <> PList ps) by (intros ps ->; discriminate).
  intros item. split.
  { pose proof (Hbase item true) as Hb. destruct item; exact Hb. }
  induction item as [|n|s|xs IH|kvs|c fs|i] using value_nested_ind;
    try (match goal with
         | |- object_matches p ?it false = _ =>
             pose proof (Hbase it false) as Hb; cbn beta iota in Hb; rewrite Hb
         end; simpl; rewrite orb_false_r; reflexivity).
  rewrite object_matches_eq.
  assert (Hgo : list_matches object_matches [p] (VList xs) false
                = Ok (existsb test (leaves (VList xs)))).
  { unfold list_matches, list_matches_seq. cbn [length orb andb].
    rewrite orb_false_r. cbn [leaves]. rewrite existsb_flat_map.
    destruct xs as [|x xs]; [reflexivity|]. cbn [length Nat.ltb Nat.leb].
    cbn [for_patterns].
    pose proof (scan_existsb object_matches p false
                  (fun x => existsb test (leaves x)) (x :: xs) IH 0) as Hscan.
    destruct (scan object_matches p false (x :: xs) 0) as [[[i rest]|]|];
      [rewrite Hscan; reflexivity|rewrite Hscan; reflexivity|destruct Hscan]. }
  destruct p; try exact Hgo. destruct (Hnl ps eq_refl).
Qed.

(** The loop of [dict_matches] when every field of the pattern is found in
    the actual and the matcher answers on it. *)
Lemma dict_items_match_fields {P : Type} (om : P -> value -> bool -> result bool)
  item strict kvs :
  (forall k v, (k, v) ∈ kvs ->
     exists x b, py_getitem item k = Ok x /\ om v x strict = Ok b) ->
  exists b, dict_items_match om item strict kvs = Ok b /\
    (b = true <->
     forall k v, (k, v) ∈ kvs ->
       exists x, py_getitem item k = Ok x /\ om v x strict = Ok true).
Proof.
  induction kvs as [|[k v] kvs IH]; intros Hall; simpl.
  - exists true. split; [reflexivity|]. split; [|reflexivity].
    intros _ k v Hkv. apply elem_of_nil in Hkv. destruct Hkv.
  - destruct (Hall k v) as (x & b & Hx & Hb); [left|].
    rewrite Hx, Hb. destruct b.
    + destruct IH as (b' & -> & Hiff).
      { intros k' v' Hkv. apply Hall. right. exact Hkv. }
      exists b'. split; [reflexivity|]. rewrite Hiff. split.
      * intros H k' v' Hkv. apply elem_of_cons in Hkv.
        destruct Hkv as [[= -> ->]|Hkv]; eauto.
      * intros H k' v' Hkv. apply H. right. exact Hkv.
    + exists false. split; [reflexivity|]. split; [discriminate|].
      intros H. destruct (H k v) as (x' & Hx' & Hb'); [left|].
      congruence.
Qed.

(** X15. A dict pattern against a dict. An actual with fewer fields than the
    pattern, or in strict mode with another number of fields, is a
    non-match, found before any field is read. Otherwise, when every field
    named in the pattern is there and the matcher answers on it, the
    matcher answers, and says yes exactly when every field of the pattern
    matches the field of the actual with that name: fields of the actual
    that the pattern does not name are not looked at. *)
Theorem dict_matches_named_fields
  (kvs : list (string * pattern)) (actual : list (string * value))
  (strict : bool) :
  (length actual < length kvs ->
   object_matches (PDict kvs) (VDict actual) strict = Ok false) /\
  (strict = true -> length actual <> length kvs ->
   object_matches (PDict kvs) (VDict actual) strict = Ok false) /\
  ((if strict then length kvs = length actual
    else length kvs <= length actual) ->
   (forall k v, (k, v) ∈ kvs ->
      exists x b, assoc k actual = Some x /\ object_matches v x strict = Ok b) ->
   exists b,
     object_matches (PDict kvs) (VDict actual) strict = Ok b /\
     (b = true <->
      forall k v, (k, v) ∈ kvs ->
        exists x, assoc k actual = Some x /\
                  object_matches v x strict = Ok true)).
Proof.
  assert (Heq : object_matches (PDict kvs) (VDict actual) strict
                = dict_matches object_matches kvs (VDict actual) strict).
  { rewrite object_matches_eq. destruct strict; reflexivity. }
  rewrite Heq. unfold dict_matches. cbn [py_len].
  split; [|split].
  - intros Hlt. apply Nat.ltb_lt in Hlt. rewrite Hlt. reflexivity.
  - intros -> Hne. replace (length kvs =? length actual)%nat with false
      by (symmetry; apply Nat.eqb_neq; lia).
    rewrite orb_true_r. reflexivity.
  - intros Hlen Hall.
    replace ((length actual <? length kvs)%nat
             || strict && negb (length kvs =? length actual)%nat) with false.
    2:{ symmetry. apply orb_false_intro.
        - apply Nat.ltb_ge. destruct strict; lia.
        - destruct strict; [|reflexivity]. simpl.
          rewrite (proj2 (Nat.eqb_eq _ _) Hlen). reflexivity. }
    destruct (dict_items_match_fields object_matches (VDict actual) strict kvs)
      as (b & Hb & Hiff).
    { intros k v Hkv. destruct (Hall k v Hkv) as (x & b & Hx & Hb).
      exists x, b. simpl. rewrite Hx. auto. }
    exists b. split; [exact Hb|]. rewrite Hiff.
    split; intros H k v Hkv; destruct (H k v Hkv) as (x & Hx & Hm); exists x;
      (split; [|exact Hm]).
    + simpl in Hx. destruct (assoc k actual); congruence.
    + simpl. rewrite Hx. reflexivity.
Qed.

Lemma contains_in_order_weaken {P : Type}
  (om : P -> value -> bool -> result bool) strict item cursor cursor' ps :
  cursor' <= cursor ->
  contains_in_order om strict item cursor ps ->
  contains_in_order om strict item cursor' ps.
Proof.
  intros Hle Hc. destruct Hc as [c|c i q qs v Hci Hi Hv Hrest]; [constructor|].
  apply (contains_cons _ _ _ cursor' i q qs v); [lia|assumption..].
Qed.

Lemma positional_contains {P : Type} (om : P -> value -> bool -> result bool)
  strict item ps : forall k,
  k + length ps <= length item ->
  (forall i p x, ps !! i = Some p -> item !! (k + i) = Some x ->
     om p x strict = Ok true) ->
  contains_in_order om strict item k ps.
Proof.
  induction ps as [|p ps IH]; intros k Hlen Hpos; [constructor|].
  simpl in Hlen.
  destruct (lookup_lt_is_Some_2 item k) as [x Hx]; [lia|].
  apply (contains_cons _ _ _ k k p ps x); [lia|exact Hx| |].
  - apply (Hpos 0 p x); [reflexivity|rewrite Nat.add_0_r; exact Hx].
  - apply (contains_in_order_weaken _ _ _ (S k)); [lia|].
    apply IH; [lia|]. intros i q y Hq Hy. apply (Hpos (S i) q y); [exact Hq|].
    replace (k + S i) with (S k + i) by lia. exact Hy.
Qed.

(** X16. A list pattern against a list. In strict mode two lists of different
    lengths never match, and in loose mode a pattern longer than the
    actual never matches; no element is examined. When the matcher raises
    on no element, two lists of the same length whose elements match
    position by position match, in both modes. *)
Theorem list_matches_lengths_and_positions
  (ps : list pattern) (xs : list value) :
  (length ps <> length xs ->
   object_matches (PList ps) (VList xs) true = Ok false) /\
  (length xs < length ps ->
   object_matches (PList ps) (VList xs) false = Ok false) /\
  (forall strict,
     (forall p w e, p ∈ ps -> w ∈ xs -> object_matches p w strict <> Raise e) ->
     length ps = length xs ->
     (forall i p x, ps !! i = Some p -> xs !! i = Some x ->
        object_matches p x strict = Ok true) ->
     object_matches (PList ps) (VList xs) strict = Ok true).
Proof.
  cbn [object_matches]. unfold list_matches, list_matches_seq.
  split; [|split].
  - intros Hne. replace (length ps =? length xs)%nat with false
      by (symmetry; apply Nat.eqb_neq; exact Hne).
    rewrite orb_true_r. reflexivity.
  - intros Hlt. apply Nat.ltb_lt in Hlt. rewrite Hlt. reflexivity.
  - intros strict Hok Hlen Hpos.
    replace ((length xs <? length ps)%nat
             || strict && negb (length ps =? length xs)%nat) with false.
    2:{ symmetry. apply orb_false_intro.
        - apply Nat.ltb_ge. lia.
        - rewrite (proj2 (Nat.eqb_eq _ _) Hlen). apply andb_false_r. }
    rewrite <- (drop_0 xs) at 1.
    apply (for_patterns_complete object_matches strict xs ps 0 Hok); [|lia].
    apply positional_contains; [simpl; lia|exact Hpos].
Qed.

Lemma scan_ext_Forall {P Q : Type} (f : P -> value -> bool -> result bool)
  (g : Q -> value -> bool -> result bool) p q strict rest :
  Forall (fun v => f p v strict = g q v strict) rest ->
  forall item_index,
    scan f p strict rest item_index = scan g q strict rest item_index.
Proof.
  induction 1 as [|v rest Hv _ IH]; intros item_index; simpl; [reflexivity|].
  rewrite Hv. destruct (g q v strict) as [[|]|]; auto.
Qed.

Lemma suds_items_match_loose_filter {P : Type}
  (om : P -> value -> bool -> result bool) (isn : P -> bool) item fields :
  suds_items_match om isn item false fields
  = suds_items_match om isn item false
      (List.filter (fun kv => negb (isn (snd kv))) fields).
Proof.
  induction fields as [|[k v] fields IH]; [reflexivity|].
  cbn [suds_items_match List.filter snd].
  destruct (isn v) eqn:Hn; cbn [andb negb]; [exact IH|].
  cbn [suds_items_match]. rewrite Hn. cbn [andb].
  destruct (om v (py_getattr_default item k) false) as [[|]|];
    [exact IH|reflexivity|reflexivity].
Qed.

(** X17. A suds object pattern. An actual suds object of another class is a
    non-match, whatever the attributes. In loose mode the attributes that
    the pattern leaves at [None] are not compared at all. An attribute
    that the actual does not have is read as [None], so in strict mode a
    pattern attribute left at [None] matches an actual without that
    attribute. And the class of an actual that is not a suds object is not
    looked at: a pattern without attributes matches it. *)
Theorem suds_object_matches_edges (cls : string)
  (fields : list (string * pattern)) :
  (forall icls ifields strict,
     isinstance_of icls cls = false ->
     object_matches (PObject cls fields) (VObject icls ifields) strict = Ok false) /\
  (forall item,
     object_matches (PObject cls fields) item false
     = object_matches
         (PObject cls (List.filter (fun kv => negb (is_none (snd kv))) fields))
         item false) /\
  (forall key ifields,
     assoc key ifields = None ->
     object_matches (PObject cls [(key, PNone)]) (VObject cls ifields) true
     = Ok true) /\
  (forall item strict,
     match item with
     | VObject _ _ | VList _ => True
     | _ => object_matches (PObject cls []) item strict = Ok true
     end).
Proof.
  split; [|split; [|split]].
  - intros icls ifields strict Hcls. rewrite object_matches_eq.
    destruct strict; unfold suds_object_matches; rewrite Hcls; reflexivity.
  - apply (value_nested_ind
             (fun item =>
                object_matches (PObject cls fields) item false
                = object_matches
                    (PObject cls
                       (List.filter (fun kv => negb (is_none (snd kv))) fields))
                    item false));
      try (intros; rewrite !object_matches_eq; unfold suds_object_matches;
           apply suds_items_match_loose_filter).
    + intros xs IH. rewrite !object_matches_eq.
      unfold list_matches, list_matches_seq. cbn [length].
      destruct ((length xs <? 1)%nat || false && negb (1 =? length xs)%nat);
        [reflexivity|].
      cbn [for_patterns].
      rewrite (scan_ext_Forall object_matches object_matches
                 (PObject cls fields)
                 (PObject cls
                    (List.filter (fun kv => negb (is_none (snd kv))) fields))
                 false xs IH 0).
      reflexivity.
    + intros c fs. rewrite !object_matches_eq. unfold suds_object_matches.
      destruct (negb (isinstance_of c cls)); [reflexivity|].
      apply suds_items_match_loose_filter.
  - intros key ifields Hmissing. rewrite object_matches_eq.
    unfold suds_object_matches, isinstance_of. rewrite String.eqb_refl.
    cbn [orb negb suds_items_match is_none andb py_getattr_default].
    rewrite Hmissing. reflexivity.
  - intros item strict. destruct item; try exact I;
      rewrite object_matches_eq; destruct strict; reflexivity.
Qed.

End MatcherShapes.



(** ** Responders in a clone *)

Section BoundResponders.

Variable instance : nat.

(** On function branches the loop of [__get__] makes no call: it appends
    the functions, bound to the instance, one after the other. *)
Lemma get_branches_functions get new_flow fs : forall st onew,
  heap st !! new_flow = Some onew ->
  exists st',
    get_branches get instance new_flow (map BFunction fs) st = Some st' /\
    heap st' !! new_flow
    = Some (with_branches
              (branches onew ++ map (fun f => BMethod f (VRef instance)) fs) onew) /\
    (forall l, l <> new_flow -> heap st' !! l = heap st !! l) /\
    dicts st' = dicts st.
Proof.
  induction fs as [|f fs IH]; intros st onew Hnew; simpl.
  - exists st. rewrite app_nil_r. repeat split.
    rewrite Hnew. destruct onew; reflexivity.
  - destruct (IH (with_heap (append_branch new_flow
                               (BMethod f (VRef instance)) (heap st)) st)
                 _ (append_branch_eq _ _ _ _ Hnew))
      as (st' & Hrun & Hl & Hother & Hd).
    exists st'. split; [exact Hrun|]. split; [|split].
    + rewrite Hl. cbn [branches with_branches]. rewrite <- app_assoc. reflexivity.
    + intros l Hne. rewrite Hother by exact Hne. simpl.
      apply append_branch_ne. exact Hne.
    + exact Hd.
Qed.

Lemma get_functions_clone (st : state) (self : nat) (o : flow_obj)
  (fs : list (list value -> gen value)) (fuel : nat) :
  heap st !! self = Some o ->
  branches o = map BFunction fs ->
  dict_get st instance "__flow" = None ->
  exists st',
    __get__ (S fuel) (Some instance) st self = Some (st', length (heap st)) /\
    heap st' !! length (heap st)
    = Some (with_branches (map (fun f => BMethod f (VRef instance)) fs) o) /\
    (cls o = PlainFlow ->
     forall request depth,
       call (S depth) (heap st') self request
       = Flow_call (map (fun f request => f [request]) fs) request /\
       call (S depth) (heap st') (length (heap st)) request
       = Flow_call (map (fun f request => f [VRef instance; request]) fs) request).
Proof.
  intros Hs Hb Hc. cbn [__get__]. rewrite Hc, Hs, Hb. cbn [alloc].
  destruct (get_branches_functions (__get__ fuel (Some instance))
              (length (heap st)) fs
              (with_heap (heap st ++ [with_branches [] o]) st)
              (with_branches [] o)
              (list_lookup_middle (heap st) [] (with_branches [] o) _ eq_refl))
    as (st1 & -> & Hl & Hother & Hd).
  eexists. split; [reflexivity|]. cbn [heap dict_set].
  cbn [branches with_branches app] in Hl. split; [exact Hl|].
  intros Hplain request depth.
  assert (Hlt : self < length (heap st)) by (eapply lookup_lt_Some; eauto).
  assert (Hself : heap st1 !! self = Some o).
  { rewrite Hother by lia. cbn [heap with_heap].
    rewrite lookup_app_l by exact Hlt. exact Hs. }
  split.
  - cbn [call]. rewrite Hself, Hplain, Hb. rewrite !map_map. reflexivity.
  - cbn [call]. rewrite Hl. cbn [cls with_branches branches]. rewrite Hplain.
    rewrite !map_map. reflexivity.
Qed.

(** X8. A flow whose branches are all functions (responders and pass-throughs)
    is cloned without any nested call: the clone holds the same functions
    bound to the owner, and a plain clone calls each of them with the owner
    instance before the request, where the definition calls it with the
    request alone. *)
Theorem get_binds_functions (st : state) (self : nat) (o : flow_obj)
  (fs : list (list value -> gen value)) (fuel : nat) :
  heap st !! self = Some o ->
  branches o = map BFunction fs ->
  dict_get st instance "__flow" = None ->
  exists st',
    __get__ (S fuel) (Some instance) st self = Some (st', length (heap st)) /\
    heap st' !! length (heap st)
    = Some (with_branches (map (fun f => BMethod f (VRef instance)) fs) o) /\
    (cls o = PlainFlow ->
     forall request depth,
       call (S depth) (heap st') self request
       = Flow_call (map (fun f request => f [request]) fs) request /\
       call (S depth) (heap st') (length (heap st)) request
       = Flow_call (map (fun f request => f [VRef instance; request]) fs) request).
Proof. apply get_functions_clone. Qed.

(** X9. [root = Flow(p); root.then_pass_through(endpoint)], read by an owner:
    the definition suspends with the request, whatever it is; the clone of
    the owner suspends with the request when the request is true and with
    the owner instance when it is false (an empty suds object, [None],
    [0]). Both return what they are resumed with. *)
Theorem pass_through_in_clone (st : state) (p : value) (endpoint : string)
  (request : value) (fuel depth : nat) :
  dict_get st instance "__flow" = None ->
  let '(st0, root) := Flow_init p st in
  let '(st1, _) := then_pass_through st0 root endpoint in
  exists st2 clone,
    __get__ (S fuel) (Some instance) st1 root = Some (st2, clone) /\
    clone <> root /\
    call (S depth) (heap st2) root request
    = Yield endpoint request (fun response => Return response) /\
    call (S depth) (heap st2) clone request
    = Yield endpoint (if truthy request then request else VRef instance)
        (fun response => Return response).
Proof.
  intros Hc. cbn [Flow_init alloc then_pass_through heap with_heap].
  set (o := {| cls := PlainFlow; parameters := p; branches := [] |}).
  set (h1 := append_branch (length (heap st))
               (BFunction (pass_through_responder endpoint)) (heap st ++ [o])).
  assert (Hroot : h1 !! length (heap st)
                  = Some (with_branches
                            [BFunction (pass_through_responder endpoint)] o)).
  { unfold h1. erewrite append_branch_eq
      by (apply list_lookup_middle; reflexivity). reflexivity. }
  assert (Hlen : length h1 = S (length (heap st))).
  { unfold h1. rewrite length_append_branch, length_app. simpl. lia. }
  destruct (get_functions_clone (with_heap h1 (with_heap (heap st ++ [o]) st))
              (length (heap st)) _ [pass_through_responder endpoint] fuel
              Hroot eq_refl Hc) as (st2 & Hget & _ & Hcall).
  cbn [heap with_heap] in Hget, Hcall. rewrite Hlen in Hget, Hcall.
  exists st2, (S (length (heap st))). split; [exact Hget|]. split; [lia|].
  destruct (Hcall eq_refl request depth) as [-> ->].
  split; [reflexivity|]. cbn. destruct (truthy request); reflexivity.
Qed.

End BoundResponders.

(** ** Default responses *)

Section Defaults.
Import DefaultResponse.

Variable factory : string -> list (string * value).











End Defaults.

(** ** These properties on small configurations *)

Section MoreInstances.

Lemma TransformingFlow_default_call_witness :
  let h := [ {| cls := TransformingFlow default_Transform; parameters := VNone;
                branches := [BFunction (respond_responder (Constant (VInt 1)))] |} ] in
  run Examples.nine (call 1 h 0 VNone) [] = ([], Raise DoesNotAccept) /\
  run Examples.nine (call 1 h 0 (VStr "/")) [] = ([], Ok (VInt 1)).
Proof.
  intros h. split.
  - rewrite (TransformingFlow_default_call 0 h 0 _ VNone Examples.nine []
               eq_refl eq_refl). reflexivity.
  - rewrite (TransformingFlow_default_call 0 h 0 _ (VStr "/") Examples.nine []
               eq_refl eq_refl). reflexivity.
Defined.

Lemma get_keeps_existing_witness :
  exists st' r,
    __get__ 3 (Some 7) Examples.routes 0 = Some (st', r) /\
    heap st' !! 1 = heap Examples.routes !! 1.
Proof.
  destruct (__get__ 3 (Some 7) Examples.routes 0) as [[st' r]|] eqn:H;
    [|vm_compute in H; discriminate].
  exists st', r. split; [reflexivity|].
  apply (get_keeps_existing _ _ _ _ _ _ H). simpl. lia.
Defined.


Lemma get_clone_flow_branches_alias_witness :
  exists st' r o',
    __get__ 3 (Some 7) Examples.routes 0 = Some (st', r) /\
    heap st' !! r = Some o' /\
    forall c1 c2, BFlow c1 ∈ branches o' -> BFlow c2 ∈ branches o' -> c1 = c2.
Proof.
  destruct (__get__ 3 (Some 7) Examples.routes 0) as [[st' r]|] eqn:H;
    [|vm_compute in H; discriminate].
  destruct (get_clone_flow_branches_alias 7 3 Examples.routes 0 st' r eq_refl H)
    as (o' & Ho' & Hall).
  exists st', r, o'. split; [reflexivity|]. split; assumption.
Defined.

Lemma get_binds_functions_witness :
  exists st', __get__ 1 (Some 7) Examples.two_definitions 0 = Some (st', 2) /\
    call 1 (heap st') 2 (VStr "/") = Return (VInt 1).
Proof.
  destruct (get_binds_functions 7 Examples.two_definitions 0 _
              [respond_responder (Constant (VInt 1))] 0 eq_refl eq_refl eq_refl)
    as (st' & Hget & _ & Hcall).
  exists st'. split; [exact Hget|].
  destruct (Hcall eq_refl (VStr "/") 0) as [_ Hc]. exact Hc.
Defined.

Lemma set_parameters_exact_witness :
  exists h', set_parameters 4 (VInt 8) Examples.chain 1 = Some h' /\
    h' !! 0 = Examples.chain !! 0 /\
    h' !! 2 = with_parameters (VInt 8) <$> Examples.chain !! 2.
Proof.
  destruct (set_parameters 4 (VInt 8) Examples.chain 1) as [h'|] eqn:H;
    [|vm_compute in H; discriminate].
  exists h'. split; [reflexivity|].
  destruct (set_parameters_exact _ _ _ _ _ H) as [_ Hn]. split.
  - apply (Hn 0). intros Hr.
    assert (Hge : forall a n, reach Examples.chain a n -> a <= n).
    { clear. intros a n Hr. induction Hr as [|a o c n Ha Hc _ IH]; [lia|].
      heap_cases a Ha; simpl in Hc; branch_cases Hc; lia. }
    apply Hge in Hr. lia.
  - apply (Hn 2). eapply reach_branch; [reflexivity|left|constructor].
Defined.

Lemma set_parameters_idempotent_witness :
  exists h', set_parameters 4 (VInt 8) Examples.chain 0 = Some h' /\
    set_parameters 4 (VInt 8) h' 0 = Some h'.
Proof.
  destruct (set_parameters 4 (VInt 8) Examples.chain 0) as [h'|] eqn:H;
    [|vm_compute in H; discriminate].
  exists h'. split; [reflexivity|].
  apply (set_parameters_idempotent _ _ _ _ _ H).
Defined.

Lemma then_delegate_cycle_never_returns_witness :
  reach Examples.chain 0 2 /\
  then_delegate 9 {| heap := Examples.chain; dicts := ∅ |} 2 0 = None.
Proof.
  assert (Hr : reach Examples.chain 0 2).
  { eapply reach_branch; [reflexivity|left|].
    eapply reach_branch; [reflexivity|left|]. constructor. }
  split; [exact Hr|].
  destruct then_delegate_cycle_never_returns as [H _].
  apply H. exact Hr.
Defined.


Lemma atomic_pattern_searches_lists_witness :
  atom_test (PInt 2) = Some (py_eq (PInt 2)) /\
  object_matches (PInt 2) (VList [VInt 1; VList [VInt 3; VInt 2]]) false
  = Ok true.
Proof.
  split; [reflexivity|].
  destruct (atomic_pattern_searches_lists (PInt 2) _ eq_refl
              (VList [VInt 1; VList [VInt 3; VInt 2]])) as [_ ->].
  reflexivity.
Defined.

Lemma dict_matches_named_fields_witness :
  exists b,
    object_matches (PDict [("a", PInt 1)])
      (VDict [("a", VInt 1); ("b", VInt 2)]) false = Ok b /\
    (b = true <->
     forall k v, (k, v) ∈ [("a", PInt 1)] ->
       exists x, assoc k [("a", VInt 1); ("b", VInt 2)] = Some x /\
                 object_matches v x false = Ok true).
Proof.
  destruct (dict_matches_named_fields [("a", PInt 1)]
              [("a", VInt 1); ("b", VInt 2)] false) as (_ & _ & H).
  apply H; [simpl; lia|].
  intros k v Hkv. apply list_elem_of_singleton in Hkv. injection Hkv as -> ->.
  exists (VInt 1), true. split; reflexivity.
Defined.

Lemma list_matches_lengths_and_positions_witness :
  object_matches (PList [PInt 1]) (VList [VInt 1; VInt 2]) true = Ok false.
Proof.
  destruct (list_matches_lengths_and_positions [PInt 1] [VInt 1; VInt 2])
    as (H & _ & _).
  apply H. simpl. lia.
Defined.

Lemma suds_object_matches_edges_witness :
  assoc "id" [("name", VStr "x")] = None /\
  object_matches (PObject "Ping" [("id", PNone)])
    (VObject "Ping" [("name", VStr "x")]) true = Ok true.
Proof.
  split; [reflexivity|].
  destruct (suds_object_matches_edges "Ping" []) as (_ & _ & H & _).
  apply H. reflexivity.
Defined.

Lemma pass_through_in_clone_witness :
  let st1 := fst (then_pass_through (fst (Flow_init VNone Examples.empty)) 0
                    "remote") in
  dict_get Examples.empty 7 "__flow" = None /\
  exists st2 clone,
    __get__ 1 (Some 7) st1 0 = Some (st2, clone) /\
    call 1 (heap st2) clone VNone
    = Yield "remote" (VRef 7) (fun response => Return response).
Proof.
  intros st1. split; [reflexivity|].
  pose proof (pass_through_in_clone 7 Examples.empty VNone "remote" VNone 0 0
                eq_refl) as H.
  cbn [Flow_init alloc then_pass_through heap with_heap Examples.empty] in H.
  destruct H as (st2 & clone & Hget & _ & _ & Hcall).
  exists st2, clone. split; [exact Hget|exact Hcall].
Defined.

End MoreInstances.
